(** * pixi3d: the camera and the mesh shader

    A shallow embedding of [src/camera/camera.ts] (class [Camera]) and of the
    mesh shader (class [MeshShader]), with the properties of their caching,
    coordinate conversion, event handling and rendering.

    Conventions.
    - A JavaScript [number] is an IEEE 754 binary64 value: Rocq's primitive
      [float].  [===] and [!==] on numbers are the IEEE comparison
      ([NaN !== NaN], [0 === -0]); truthiness of a number excludes [0], [-0]
      and [NaN].
    - The version counters ([_id], [_worldID]) only ever hold small
      non-negative integers, on which binary64 arithmetic is exact; they are
      modelled in [Z].
    - A [Float32Array] of length 3, 4 or 16 is a record of that many numbers;
      a store into one rounds to binary32 ([JS.fround]).
    - The modules the camera imports but whose text is not among the sources
      ([../math/mat4], [../math/vec3], [../math/vec4], the host transform) are
      the fields of the class [Host]: every theorem holds for every
      implementation of them. *)

From Stdlib Require Import ZArith Floats Lia.
From stdpp Require Import base option list strings.

Set Warnings "-inexact-float".

(** ** JavaScript numbers *)

(** The type of JavaScript numbers. *)
Abbreviation number := float (only parsing).

Module JS.

(** [x === y] and [x !== y] on numbers. *)
Definition strict_eq (x y : number) : bool := (x =? y)%float.
Definition strict_neq (x y : number) : bool := negb (strict_eq x y).

(** [ToBoolean] of a number: [0], [-0] and [NaN] are falsy. *)
Definition truthy (x : number) : bool := negb (x =? 0)%float && (x =? x)%float.

(** [Math.PI]. *)
Definition PI : number := 0x1.921fb54442d18p+1%float.

(** The conversion a [Float32Array] applies to a number it stores
    ([Math.fround]): round to nearest, ties to even, in binary32 (24 bits
    of precision, exponents up to 128); zeros, infinities and NaN are
    kept. *)
Definition fround (x : number) : number :=
    match Prim2SF x with
    | S754_finite s m e =>
        SF2Prim (binary_normalize 24 128 (if s then Zneg m else Zpos m) e s)
    | _ => x
    end.

(** [a !== b] where both are [number | undefined]. *)
Definition strict_neq_opt (a b : option number) : bool :=
    match a, b with
    | None, None => false
    | Some x, Some y => strict_neq x y
    | _, _ => true
    end.

(** Truthiness of a [number | undefined]. *)
Definition truthy_opt (a : option number) : bool :=
    match a with
    | Some x => truthy x
    | None => false
    end.

(** [a || b] where [a] is a [number | undefined] and [b] a number. *)
Definition or_else (a : option number) (b : number) : number :=
    match a with
    | Some x => if truthy x then x else b
    | None => b
    end.

End JS.

(** A few values: the rounding of a [Float32Array] store, and the numbers
    that are falsy. *)
Example fround_tenth : JS.fround 0.1 = 0.10000000149011612%float.
Proof. vm_compute. reflexivity. Qed.

Example fround_odd_integer : JS.fround 16777217 = 16777216%float.
Proof. vm_compute. reflexivity. Qed.

Example fround_overflow : JS.fround 1e40 = infinity.
Proof. vm_compute. reflexivity. Qed.

Example falsy_numbers :
  JS.truthy 0 = false /\ JS.truthy (-0) = false /\ JS.truthy nan = false /\
  JS.truthy 0.5 = true /\ JS.truthy neg_infinity = true.
Proof. vm_compute. auto. Qed.

Example nan_differs_from_itself :
  JS.strict_neq nan nan = true /\ JS.strict_neq 0 (-0) = false.
Proof. vm_compute. auto. Qed.

(** ** Typed arrays and points *)

(** [Float32Array(3)]. *)
Record Vec3 := mkVec3 { e0 : number; e1 : number; e2 : number }.

(** [Float32Array(4)]. *)
Record Vec4 := mkVec4 { v0 : number; v1 : number; v2 : number; v3 : number }.

(** [Float32Array(16)], in the column-major order of the math library:
    the entry with index [4 * column + row]. *)
Record Mat4 := mkMat4 {
  m0 : number; m1 : number; m2 : number; m3 : number;
  m4 : number; m5 : number; m6 : number; m7 : number;
  m8 : number; m9 : number; m10 : number; m11 : number;
  m12 : number; m13 : number; m14 : number; m15 : number }.

(** [new Float32Array(n)] holds zeros. *)
Definition Vec3_zero : Vec3 := mkVec3 0 0 0.
Definition Vec4_zero : Vec4 := mkVec4 0 0 0 0.
Definition Mat4_zero : Mat4 := mkMat4 0 0 0 0 0 0 0 0 0 0 0 0 0 0 0 0.

(** [a[i]] on a [Float32Array(4)]: an index outside the array reads
    [undefined], which every use below turns into [NaN]. *)
Definition Vec4_get (i : nat) (a : Vec4) : number :=
  match i with
  | 0 => v0 a
  | 1 => v1 a
  | 2 => v2 a
  | 3 => v3 a
  | _ => nan
  end.

(** [a[i] = x] on a [Float32Array(4)]: the value is rounded to binary32; a
    store outside the array is ignored. *)
Definition Vec4_put (i : nat) (x : number) (a : Vec4) : Vec4 :=
  match i with
  | 0 => mkVec4 (JS.fround x) (v1 a) (v2 a) (v3 a)
  | 1 => mkVec4 (v0 a) (JS.fround x) (v2 a) (v3 a)
  | 2 => mkVec4 (v0 a) (v1 a) (JS.fround x) (v3 a)
  | 3 => mkVec4 (v0 a) (v1 a) (v2 a) (JS.fround x)
  | _ => a
  end.

(** [PIXI.Point]: two numbers, and [set], which returns the point. *)
Record Point := mkPoint { px : number; py : number }.
Definition Point_set (x y : number) (_ : Point) : Point := mkPoint x y.

(** The state of an [ObservablePoint3D]: three numbers.  Its method [set]
    belongs to a module that is not among the sources and is a field of
    [Host] below. *)
Record Point3D := mkPoint3D { qx : number; qy : number; qz : number }.

(** ** The imported modules *)

(** What [camera.ts] calls and does not define.  The math functions write
    their result into the array [out] they are given and return it; here they
    return the contents [out] has afterwards.  [Mat4.invert] returns [null]
    ([None]) when it cannot invert.  How an [ObservablePoint3D] stores the
    coordinates it is set to is its own business ([ObservablePoint3D_set]).

    The transform is the host engine's: [worldID] is its [_worldID], and
    [worldPosition], [worldForward] and [worldUp] are what
    [worldTransform.position], [.forward] and [.up] read.  [_worldID] is the
    identifier the caches are keyed to: the host never decreases it, and it
    changes whenever the world transform does ([advances]). *)
Class Host := {
  Mat4_perspective : number -> number -> number -> number -> Mat4;
  Mat4_lookAt : Vec3 -> Vec3 -> Vec3 -> Mat4;
  Mat4_multiply : Mat4 -> Mat4 -> Mat4;
  Mat4_invert : Mat4 -> option Mat4;
  Vec3_add : Vec3 -> Vec3 -> Vec3;
  Vec4_set : number -> number -> number -> number -> Vec4;
  Vec4_transformMat4 : Vec4 -> Mat4 -> Vec4;
  (** [point.set(x, y, z)] on an [ObservablePoint3D]: the point as the call
      leaves it, which is also what the call returns. *)
  ObservablePoint3D_set : number -> number -> number -> Point3D -> Point3D;
  Transform3D : Type;
  worldID : Transform3D -> Z;
  worldPosition : Transform3D -> Vec3;
  worldForward : Transform3D -> Vec3;
  worldUp : Transform3D -> Vec3;
(** [transform.updateTransform()] *)
  updateTransform : Transform3D -> Transform3D;
(** The transform of a new [Container3D] after [position.z = 5] and
    [rotationQuaternion.setEulerAngles(0, 180, 0)]. *)
  Camera_transform : Transform3D;
  advances (t t' : Transform3D) : Prop :=
    (worldID t <= worldID t')%Z /\
    (worldID t = worldID t' ->
     worldPosition t = worldPosition t' /\
     worldForward t = worldForward t' /\
     worldUp t = worldUp t');
  updateTransform_advances : forall t, advances t (updateTransform t)
}.

(** ** The cached matrices *)

(** Modelled from the spec: [MatrixComponent] ([../transform/matrix-component]
    is not among the sources).  The spec describes the cached matrices as "a
    cache keyed to a host-engine transform identifier ([_worldID]) and
    invalidated via a manually incremented dirty counter", with "lazy
    recomputation gated by a version counter": a component holds an array and
    the key ([id] of its parent) under which the array was last computed; a
    new component has no key, and reading [array] recomputes the array when
    the parent's [id] is not the key. *)
Record MatrixComponent (A : Type) := mkMatrixComponent {
  mc_id : option Z;
  mc_array : A }.
Arguments mkMatrixComponent {A} _ _.
Arguments mc_id {A} _.
Arguments mc_array {A} _.

Definition MatrixComponent_new {A : Type} (zeros : A) : MatrixComponent A :=
  mkMatrixComponent None zeros.

(** The state monad of code that runs on one object of state [S]. *)
Definition StateM (S A : Type) : Type := S -> A * S.

(** Modelled from the spec: the getter [array] of a [MatrixComponent], for
    a component whose parent is the state [s] and whose function [update]
    computes the array (and may change the parent). *)
Definition MatrixComponent_array {S A : Type} (parent_id : S -> Z)
    (update : StateM S A) (mc : MatrixComponent A) : StateM S (MatrixComponent A) :=
  fun s =>
    if decide (mc_id mc = Some (parent_id s)) then (mc, s)
    else let '(a, s') := update s in
         (mkMatrixComponent (Some (parent_id s)) a, s').

#[export] Instance StateM_ret {S : Type} : MRet (StateM S) :=
  fun A a s => (a, s).
#[export] Instance StateM_bind {S : Type} : MBind (StateM S) :=
  fun A B f m s => let '(a, s') := m s in f a s'.

(** Running a mutation of the state inside the monad. *)
Definition modify {S : Type} (f : S -> S) : StateM S unit :=
  fun s => (tt, f s).
Definition gets {S A : Type} (f : S -> A) : StateM S A :=
  fun s => (f s, s).

(** ** The renderer *)

(** [PIXI.Renderer] as far as the camera uses it: its size, and the
    listeners of its [prerender] event, in the order they were registered.
    A listener is the callback a camera registered in its constructor, so it
    is recorded as (the reference of) that camera. *)
Record Renderer := mkRenderer {
  width : number;
  height : number;
  prerender : list nat }.

(** ** The camera *)

Module Camera.
Section WithHost.
Context `{Host}.

(** The fields of a [Camera]: its own, and of [Container3D] the transform
    and the parent ([None] for [null]). *)
Record t := mk {
  _id : Z;
  transform : Transform3D;
  parent : option nat;
  _fieldOfView : number;
  _near : number;
  _far : number;
  _aspect : option number;
  _projection : option (MatrixComponent Mat4);
  _view : option (MatrixComponent Mat4);
  _viewProjection : option (MatrixComponent Mat4);
  _target : option (MatrixComponent Vec3) }.

Definition with__id (x : Z) (c : t) : t :=
  mk x (transform c) (parent c) (_fieldOfView c) (_near c) (_far c) (_aspect c)
     (_projection c) (_view c) (_viewProjection c) (_target c).
Definition with_transform (x : Transform3D) (c : t) : t :=
  mk (_id c) x (parent c) (_fieldOfView c) (_near c) (_far c) (_aspect c)
     (_projection c) (_view c) (_viewProjection c) (_target c).
Definition with_parent (x : option nat) (c : t) : t :=
  mk (_id c) (transform c) x (_fieldOfView c) (_near c) (_far c) (_aspect c)
     (_projection c) (_view c) (_viewProjection c) (_target c).
Definition with__fieldOfView (x : number) (c : t) : t :=
  mk (_id c) (transform c) (parent c) x (_near c) (_far c) (_aspect c)
     (_projection c) (_view c) (_viewProjection c) (_target c).
Definition with__near (x : number) (c : t) : t :=
  mk (_id c) (transform c) (parent c) (_fieldOfView c) x (_far c) (_aspect c)
     (_projection c) (_view c) (_viewProjection c) (_target c).
Definition with__far (x : number) (c : t) : t :=
  mk (_id c) (transform c) (parent c) (_fieldOfView c) (_near c) x (_aspect c)
     (_projection c) (_view c) (_viewProjection c) (_target c).
Definition with__aspect (x : option number) (c : t) : t :=
  mk (_id c) (transform c) (parent c) (_fieldOfView c) (_near c) (_far c) x
     (_projection c) (_view c) (_viewProjection c) (_target c).
Definition with__projection (x : option (MatrixComponent Mat4)) (c : t) : t :=
  mk (_id c) (transform c) (parent c) (_fieldOfView c) (_near c) (_far c) (_aspect c)
     x (_view c) (_viewProjection c) (_target c).
Definition with__view (x : option (MatrixComponent Mat4)) (c : t) : t :=
  mk (_id c) (transform c) (parent c) (_fieldOfView c) (_near c) (_far c) (_aspect c)
     (_projection c) x (_viewProjection c) (_target c).
Definition with__viewProjection (x : option (MatrixComponent Mat4)) (c : t) : t :=
  mk (_id c) (transform c) (parent c) (_fieldOfView c) (_near c) (_far c) (_aspect c)
     (_projection c) (_view c) x (_target c).
Definition with__target (x : option (MatrixComponent Vec3)) (c : t) : t :=
  mk (_id c) (transform c) (parent c) (_fieldOfView c) (_near c) (_far c) (_aspect c)
     (_projection c) (_view c) (_viewProjection c) x.

(** [get id() { return this.transform._worldID + this._id }] *)
Definition id (c : t) : Z := (worldID (transform c) + _id c)%Z.

(** [this._id++] *)
Definition incr_id (c : t) : t := with__id (_id c + 1)%Z c.

(** The fields as the class initialises them and as the constructor's
    last two statements leave the transform; a new display object has no
    parent. *)
Definition init : t :=
  mk 0%Z Camera_transform None 60 0.1 1000 None None None None None.

(** The callback the constructor registers on the renderer's [prerender]
    event. *)
Definition on_prerender (c : t) : t :=
  let c := if negb (JS.truthy_opt (_aspect c)) then incr_id c else c in
  if negb (bool_decide (is_Some (parent c)))
  then with_transform (updateTransform (transform c)) c
  else c.

(** *** The accessors of the four parameters *)

Definition aspect (c : t) : option number := _aspect c.
Definition set_aspect (value : option number) (c : t) : t :=
  if JS.strict_neq_opt (_aspect c) value
  then incr_id (with__aspect value c)
  else c.

Definition fieldOfView (c : t) : number := _fieldOfView c.
Definition set_fieldOfView (value : number) (c : t) : t :=
  if JS.strict_neq (_fieldOfView c) value
  then incr_id (with__fieldOfView value c)
  else c.

Definition near (c : t) : number := _near c.
Definition set_near (value : number) (c : t) : t :=
  if JS.strict_neq (_near c) value
  then incr_id (with__near value c)
  else c.

Definition far (c : t) : number := _far c.
Definition set_far (value : number) (c : t) : t :=
  if JS.strict_neq (_far c) value
  then incr_id (with__far value c)
  else c.

(** *** The cached matrices

    Each getter creates its component on first use and returns the
    component's [array]; the function given to the component recomputes
    the array from the camera (and may read other getters). *)

(** [this._projection.array] and the like: read the component in a slot,
    creating it first if the slot is empty, and leave it in the slot. *)
Definition cached {A : Type} (slot : t -> option (MatrixComponent A))
    (store : option (MatrixComponent A) -> t -> t) (zeros : A)
    (update : StateM t A) : StateM t A :=
  fun c =>
    let mc := default (MatrixComponent_new zeros) (slot c) in
    let '(mc', c') := MatrixComponent_array id update mc (store (Some mc) c) in
    (mc_array mc', store (Some mc') c').

Definition projection (r : Renderer) : StateM t Mat4 :=
  cached _projection with__projection Mat4_zero
    (fun c =>
       (Mat4_perspective
          (_fieldOfView c * (JS.PI / 180))
          (JS.or_else (_aspect c) (width r / height r))
          (_near c) (_far c), c)).

Definition target : StateM t Vec3 :=
  cached _target with__target Vec3_zero
    (fun c =>
       (Vec3_add (worldPosition (transform c)) (worldForward (transform c)), c)).

Definition view : StateM t Mat4 :=
  cached _view with__view Mat4_zero
    (position ← gets (fun c => worldPosition (transform c));
     tg ← target;
     up ← gets (fun c => worldUp (transform c));
     mret (Mat4_lookAt position tg up)).

Definition viewProjection (r : Renderer) : StateM t Mat4 :=
  cached _viewProjection with__viewProjection Mat4_zero
    (p ← projection r;
     v ← view;
     mret (Mat4_multiply p v)).

(** *** Coordinate conversion *)

(** [screenToWorld(x, y, distance, point)].  The result is what the method
    returns ([None] for [undefined]) together with the point as the call
    leaves it.  The two scratch arrays of the module, [mat4] and [vec4],
    are written before they are read in every call, so they carry nothing
    from one call to the next. *)
Definition screenToWorld (x y distance : number) (point : Point3D)
    (r : Renderer) : StateM t (option Point3D * Point3D) :=
  far0 ← gets far;
  modify (set_far distance);;
  vp ← viewProjection r;
  match Mat4_invert vp with
  | None => mret (None, point)
  | Some invertedViewProjection =>
      let clipSpace :=
        Vec4_set (x / width r * 2 - 1) ((y / height r * 2 - 1) * -1) 1 1 in
      modify (set_far far0);;
      let worldSpace := Vec4_transformMat4 clipSpace invertedViewProjection in
      let worldSpace := Vec4_put 3 (1 / Vec4_get 3 worldSpace) worldSpace in
      let worldSpace :=
        foldl (fun a i => Vec4_put i (Vec4_get i a * Vec4_get 3 a) a)
              worldSpace (seq 0 3) in
      let point' :=
        ObservablePoint3D_set (Vec4_get 0 worldSpace) (Vec4_get 1 worldSpace)
                    (Vec4_get 2 worldSpace) point in
      mret (Some point', point')
  end.

(** The first statements of [worldToScreen], up to the division: the local
    [clipSpace] as the method has it when it sets the point. *)
Definition clipSpace (x y z : number) (r : Renderer) : StateM t Vec4 :=
  let worldSpace := Vec4_set x y z 1 in
  v ← view;
  let viewSpace := Vec4_transformMat4 worldSpace v in
  p ← projection r;
  let clipSpace := Vec4_transformMat4 viewSpace p in
  mret (if JS.strict_neq (Vec4_get 3 clipSpace) 0
        then foldl (fun a i => Vec4_put i (Vec4_get i a / Vec4_get 3 a) a)
                   clipSpace (seq 0 3)
        else clipSpace).

(** [worldToScreen(x, y, z, point)]. *)
Definition worldToScreen (x y z : number) (point : Point)
    (r : Renderer) : StateM t Point :=
  clipSpace ← clipSpace x y z r;
  mret (Point_set ((Vec4_get 0 clipSpace + 1) / 2 * width r)
                  (height r - (Vec4_get 1 clipSpace + 1) / 2 * height r)
                  point).

End WithHost.
End Camera.

(** ** The program state *)

(** The objects the camera code shares: the renderer, the cameras built so
    far (a camera's reference is its position in the list) and the static
    field [Camera.main] ([None] while it is [undefined]). *)
Module World.
Section WithHost.
Context `{Host}.

Record t := mk {
  renderer : Renderer;
  cameras : list Camera.t;
  Camera_main : option nat }.

(** A program that has built no camera yet, on a renderer of the given
    size. *)
Definition start (w h : number) : t :=
  mk (mkRenderer w h []) [] None.

(** [new Camera(renderer)]: registers the [prerender] callback of the new
    camera, makes the camera [Camera.main] if there is none, and leaves
    the camera with its initial fields. *)
Definition new_Camera (s : t) : t :=
  let this := length (cameras s) in
  let r := renderer s in
  mk (mkRenderer (width r) (height r) (prerender r ++ [this]))
     (cameras s ++ [Camera.init])
     (match Camera_main s with
      | None => Some this
      | Some main => Some main
      end).

(** The renderer emits [prerender]: the listeners run in the order in
    which they were registered. *)
Definition emit_prerender (s : t) : t :=
  mk (renderer s)
     (foldl (fun cs i => alter Camera.on_prerender i cs)
            (cameras s) (prerender (renderer s)))
     (Camera_main s).

(** The host resizes the renderer. *)
Definition resize (w h : number) (s : t) : t :=
  mk (mkRenderer w h (prerender (renderer s))) (cameras s) (Camera_main s).

(** What the program or the host can do with one camera. *)
Inductive call :=
  | SetAspect (value : option number)
  | SetFieldOfView (value : number)
  | SetNear (value : number)
  | SetFar (value : number)
  | GetProjection
  | GetTarget
  | GetView
  | GetViewProjection
  | ScreenToWorld (x y distance : number) (point : Point3D)
  | WorldToScreen (x y z : number) (point : Point)
  | SetParent (p : option nat)
  | SetTransform (t' : Transform3D).

Definition run_call (k : call) (r : Renderer) (c : Camera.t) : Camera.t :=
  match k with
  | SetAspect value => Camera.set_aspect value c
  | SetFieldOfView value => Camera.set_fieldOfView value c
  | SetNear value => Camera.set_near value c
  | SetFar value => Camera.set_far value c
  | GetProjection => snd (Camera.projection r c)
  | GetTarget => snd (Camera.target c)
  | GetView => snd (Camera.view c)
  | GetViewProjection => snd (Camera.viewProjection r c)
  | ScreenToWorld x y distance point =>
      snd (Camera.screenToWorld x y distance point r c)
  | WorldToScreen x y z point => snd (Camera.worldToScreen x y z point r c)
  | SetParent p => Camera.with_parent p c
  | SetTransform t' => Camera.with_transform t' c
  end.

(** The host changes a transform only in the way [advances] allows. *)
Definition permitted (k : call) (c : Camera.t) : Prop :=
  match k with
  | SetTransform t' => advances (Camera.transform c) t'
  | _ => True
  end.

(** The states a program can be in.  The host resizes the renderer
    between two frames: the resize is followed by the [prerender] event of
    the next frame before any camera is used again. *)
Inductive reachable : t -> Prop :=
  | reachable_start w h :
    reachable (start w h)
  | reachable_new s :
    reachable s -> reachable (new_Camera s)
  | reachable_prerender s :
    reachable s -> reachable (emit_prerender s)
  | reachable_resize s w h :
    reachable s -> reachable (emit_prerender (resize w h s))
  | reachable_call s i c k :
    reachable s ->
    cameras s !! i = Some c ->
    permitted k c ->
    reachable (mk (renderer s) (<[i := run_call k (renderer s) c]> (cameras s))
                  (Camera_main s)).

End WithHost.
End World.

(** ** The mesh shader *)

Module MeshShader.

(** A typed array of the geometry data, by element type. *)
Inductive TypedArray :=
  | Uint8Array (elements : list Z)
  | Uint16Array (elements : list Z)
  | Uint32Array (elements : list Z)
  | Float32Array (elements : list number).

(** [ToUint32] of a number: the integer part, modulo [2^32]; [0] for
    zeros, infinities and NaN. *)
Definition ToUint32 (x : number) : Z :=
  match Prim2SF x with
  | S754_finite s m e =>
      let magnitude := Z.shiftl (Zpos m) e in
      ((if s then - magnitude else magnitude) mod 2 ^ 32)%Z
  | _ => 0%Z
  end.

(** [new Uint32Array(a)] for a typed array [a]: the elements of [a],
    each converted to an unsigned 32-bit integer. *)
Definition new_Uint32Array (a : TypedArray) : TypedArray :=
  match a with
  | Uint8Array l | Uint16Array l | Uint32Array l =>
      Uint32Array (map (fun x => x mod 2 ^ 32)%Z l)
  | Float32Array l => Uint32Array (map ToUint32 l)
  end.

(** One set of vertex data of a [MeshGeometry3D]. *)
Record MeshGeometryAttribute := mkAttribute {
  buffer : TypedArray;
  componentType : Z;
  stride : Z }.

(** The calls a geometry receives as a [PIXI.Geometry]; each wraps its
    data in a new [PIXI.Buffer]. *)
Inductive geometry_call :=
  | addIndex (data : TypedArray)
  | addAttribute (id : string) (data : TypedArray) (size : Z)
    (normalized : bool) (type : Z) (stride : Z).

(** Modelled from the spec: [MeshGeometry3D] ([./geometry/mesh-geometry]
    is not among the sources).  It holds the optional vertex data the
    shader reads, the calls it has received as a [PIXI.Geometry], and the
    names of the shaders whose attributes it has ([_shaders]): the shader's
    [name] is "used for figuring out if geometry attributes is compatible
    with the shader". *)
Record MeshGeometry3D := mkGeometry {
  indices : option MeshGeometryAttribute;
  positions : option MeshGeometryAttribute;
  uvs : option (list MeshGeometryAttribute);
  normals : option MeshGeometryAttribute;
  tangents : option MeshGeometryAttribute;
  calls : list geometry_call;
  _shaders : list string }.

Definition call (k : geometry_call) (g : MeshGeometry3D) : MeshGeometry3D :=
  mkGeometry (indices g) (positions g) (uvs g) (normals g) (tangents g)
             (calls g ++ [k]) (_shaders g).

(** The flags of a [PIXI.State] that the shader sets. *)
Record State := mkState {
  culling : bool;
  clockwiseFrontFace : bool;
  depthTest : bool }.

(** [PIXI.DRAW_MODES] is a numeric enumeration; its values are those of
    the primitive types of WebGL. *)
Definition DRAW_MODES := Z.
Definition POINTS : DRAW_MODES := 0%Z.
Definition LINES : DRAW_MODES := 1%Z.
Definition LINE_LOOP : DRAW_MODES := 2%Z.
Definition LINE_STRIP : DRAW_MODES := 3%Z.
Definition TRIANGLES : DRAW_MODES := 4%Z.
Definition TRIANGLE_STRIP : DRAW_MODES := 5%Z.
Definition TRIANGLE_FAN : DRAW_MODES := 6%Z.

(** The fields of a [MeshShader]; [name] is the getter, which a subclass
    with attributes of its own overrides. *)
Record t := mk {
  state : State;
  drawMode : DRAW_MODES;
  name : string }.

Definition new : t :=
  mk (mkState true false true) TRIANGLES "mesh-shader".

(** [addGeometryAttributes(geometry)] *)
Definition addGeometryAttributes (geometry : MeshGeometry3D) : MeshGeometry3D :=
  let geometry :=
    match indices geometry with
    | Some a => call (addIndex (new_Uint32Array (buffer a))) geometry
    | None => geometry
    end in
  let geometry :=
    match positions geometry with
    | Some a =>
        call (addAttribute "a_Position" (buffer a) 3 false (componentType a) (stride a))
             geometry
    | None => geometry
    end in
  let geometry :=
    match uvs geometry with
    | Some (a :: _) =>
        call (addAttribute "a_UV1" (buffer a) 2 false (componentType a) (stride a))
             geometry
    | _ => geometry
    end in
  let geometry :=
    match normals geometry with
    | Some a =>
        call (addAttribute "a_Normal" (buffer a) 3 false (componentType a) (stride a))
             geometry
    | None => geometry
    end in
  match tangents geometry with
  | Some a =>
      call (addAttribute "a_Tangent" (buffer a) 4 false (componentType a) (stride a))
           geometry
  | None => geometry
  end.

(** Modelled from the spec: [MeshGeometry3D.hasShaderAttributes], whether
    the geometry already has the attributes of a shader of this name. *)
Definition hasShaderAttributes (shader : t) (g : MeshGeometry3D) : bool :=
  bool_decide (name shader ∈ _shaders g).

(** Modelled from the spec: [MeshGeometry3D.addShaderAttributes], which
    has the shader add its attributes and records the shader's name. *)
Definition addShaderAttributes (shader : t) (g : MeshGeometry3D) : MeshGeometry3D :=
  let g := addGeometryAttributes g in
  mkGeometry (indices g) (positions g) (uvs g) (normals g) (tangents g)
             (calls g) (_shaders g ++ [name shader]).

(** What [render] asks of the renderer, in order. *)
Inductive command :=
  | shader_bind (shader : t) (dontSync : bool)
  | state_set (s : State)
  | geometry_bind (g : MeshGeometry3D) (shader : t)
  | geometry_draw (mode : DRAW_MODES).

(** [a || b] on draw modes: a missing mode and the mode [0] are falsy. *)
Definition or_else (a : option DRAW_MODES) (b : DRAW_MODES) : DRAW_MODES :=
  match a with
  | Some mode => if bool_decide (mode = 0%Z) then b else mode
  | None => b
  end.

(** [render(mesh, renderer, state, drawMode)], on the geometry of the
    mesh: the geometry as the call leaves it and the commands the renderer
    receives.  A [PIXI.State] is an object, so [state || this.state] is
    [state] whenever one is given. *)
Definition render (shader : t) (geometry : MeshGeometry3D)
    (state0 : option State) (drawMode0 : option DRAW_MODES)
    : MeshGeometry3D * list command :=
  let geometry :=
    if negb (hasShaderAttributes shader geometry)
    then addShaderAttributes shader geometry
    else geometry in
  (geometry,
   [ shader_bind shader false;
     state_set (default (state shader) state0);
     geometry_bind geometry shader;
     geometry_draw (or_else drawMode0 (drawMode shader)) ]).

End MeshShader.

(** ** What the caches should hold *)

(** The values the four cached arrays have when they are computed from the
    present fields of the camera, and the invariant that ties the caches to
    them. *)
Module Coherence.
Section WithHost.
Context `{Host}.
Import Camera.

Definition projection_now (r : Renderer) (c : Camera.t) : Mat4 :=
  Mat4_perspective (_fieldOfView c * (JS.PI / 180))
                   (JS.or_else (_aspect c) (width r / height r))
                   (_near c) (_far c).

Definition target_now (c : Camera.t) : Vec3 :=
  Vec3_add (worldPosition (transform c)) (worldForward (transform c)).

Definition view_now (c : Camera.t) : Mat4 :=
  Mat4_lookAt (worldPosition (transform c)) (target_now c) (worldUp (transform c)).

Definition viewProjection_now (r : Renderer) (c : Camera.t) : Mat4 :=
  Mat4_multiply (projection_now r c) (view_now c).

(** The key a slot holds, the array it holds, and the slot as a read
    under [key] leaves it. *)
Definition key_of {A : Type} (slot : option (MatrixComponent A)) : option Z :=
  slot ≫= mc_id.
Definition stored {A : Type} (zeros : A) (slot : option (MatrixComponent A)) : A :=
  mc_array (default (MatrixComponent_new zeros) slot).
Definition store {A : Type} (key : Z) (a : A) : option (MatrixComponent A) :=
  Some (mkMatrixComponent (Some key) a).

(** A slot is fresh for [key] and [value] when its key is not ahead of
    [key] and, if it is [key], the slot holds [value]. *)
Definition fresh {A : Type} (slot : option (MatrixComponent A)) (key : Z)
    (value : A) : Prop :=
  forall mc k, slot = Some mc -> mc_id mc = Some k ->
    (k <= key)%Z /\ (k = key -> mc_array mc = value).

(** A slot is stale when a read of it will recompute. *)
Definition stale {A : Type} (slot : option (MatrixComponent A)) (key : Z) : Prop :=
  key_of slot <> Some key.

Record coherent (r : Renderer) (c : Camera.t) : Prop := {
  coherent_target : fresh (_target c) (id c) (target_now c);
  coherent_view : fresh (_view c) (id c) (view_now c);
  coherent_projection : fresh (_projection c) (id c) (projection_now r c);
  coherent_viewProjection :
    fresh (_viewProjection c) (id c) (viewProjection_now r c) }.

End WithHost.
End Coherence.

(** ** A reference host *)

(** An implementation of [Host] on which the camera can be run: the
    textbook matrix functions the spec names ("perspective projection,
    look-at, matrix inversion"), writing into [Float32Array]s, and a
    transform that applies a pending change when it is updated. *)
Module Reference.

Local Open Scope float_scope.

Abbreviation f32 := JS.fround (only parsing).

(** [Math.tan] is implementation-approximated in ECMAScript; here the
    quotient of the Maclaurin polynomials of degree 15 and 14 of the sine
    and the cosine. *)
Definition sin (x : number) : number :=
  let x2 := x * x in
  x * (1 - x2 / 6 * (1 - x2 / 20 * (1 - x2 / 42 * (1 - x2 / 72 *
      (1 - x2 / 110 * (1 - x2 / 156 * (1 - x2 / 210))))))).
Definition cos (x : number) : number :=
  let x2 := x * x in
  1 - x2 / 2 * (1 - x2 / 12 * (1 - x2 / 30 * (1 - x2 / 56 *
      (1 - x2 / 90 * (1 - x2 / 132 * (1 - x2 / 182)))))).
Definition tan (x : number) : number := sin x / cos x.

(** [Math.hypot] of three numbers. *)
Definition hypot (x y z : number) : number := sqrt (x * x + y * y + z * z).

(** Modelled from the spec: [Mat4.perspective], the standard perspective
    projection matrix of a vertical field of view in radians, an aspect
    ratio and the two clipping planes. *)
Definition perspective (fovy aspect near far : number) : Mat4 :=
  let f := 1 / tan (fovy / 2) in
  let nf := 1 / (near - far) in
  mkMat4 (f32 (f / aspect)) 0 0 0
         0 (f32 f) 0 0
         0 0 (f32 ((far + near) * nf)) (-1)
         0 0 (f32 (2 * far * near * nf)) 0.

Definition identity : Mat4 :=
  mkMat4 1 0 0 0  0 1 0 0  0 0 1 0  0 0 0 1.

Definition EPSILON : number := 0.000001.

(** Modelled from the spec: [Mat4.lookAt], the standard look-at matrix of
    an eye position, a target and an up vector. *)
Definition lookAt (eye center up : Vec3) : Mat4 :=
  let '(mkVec3 eyex eyey eyez) := eye in
  let '(mkVec3 centerx centery centerz) := center in
  let '(mkVec3 upx upy upz) := up in
  if (abs (eyex - centerx) <? EPSILON) && (abs (eyey - centery) <? EPSILON)
     && (abs (eyez - centerz) <? EPSILON)
  then identity
  else
    let z0 := eyex - centerx in
    let z1 := eyey - centery in
    let z2 := eyez - centerz in
    let len := 1 / hypot z0 z1 z2 in
    let z0 := z0 * len in
    let z1 := z1 * len in
    let z2 := z2 * len in
    let x0 := upy * z2 - upz * z1 in
    let x1 := upz * z0 - upx * z2 in
    let x2 := upx * z1 - upy * z0 in
    let len := hypot x0 x1 x2 in
    let len := if JS.truthy len then 1 / len else 0 in
    let x0 := x0 * len in
    let x1 := x1 * len in
    let x2 := x2 * len in
    let y0 := z1 * x2 - z2 * x1 in
    let y1 := z2 * x0 - z0 * x2 in
    let y2 := z0 * x1 - z1 * x0 in
    let len := hypot y0 y1 y2 in
    let len := if JS.truthy len then 1 / len else 0 in
    let y0 := y0 * len in
    let y1 := y1 * len in
    let y2 := y2 * len in
    mkMat4 (f32 x0) (f32 y0) (f32 z0) 0
           (f32 x1) (f32 y1) (f32 z1) 0
           (f32 x2) (f32 y2) (f32 z2) 0
           (f32 (- (x0 * eyex + x1 * eyey + x2 * eyez)))
           (f32 (- (y0 * eyex + y1 * eyey + y2 * eyez)))
           (f32 (- (z0 * eyex + z1 * eyey + z2 * eyez)))
           1.

(** The combination [x * column 0 + y * column 1 + z * column 2 +
    w * column 3] of the columns of [m]. *)
Definition combine (m : Mat4) (x y z w : number) : Vec4 :=
  mkVec4 (f32 (m0 m * x + m4 m * y + m8 m * z + m12 m * w))
         (f32 (m1 m * x + m5 m * y + m9 m * z + m13 m * w))
         (f32 (m2 m * x + m6 m * y + m10 m * z + m14 m * w))
         (f32 (m3 m * x + m7 m * y + m11 m * z + m15 m * w)).

(** Modelled from the spec: [Vec4.transformMat4], the matrix applied to
    the vector. *)
Definition transformMat4 (a : Vec4) (m : Mat4) : Vec4 :=
  combine m (v0 a) (v1 a) (v2 a) (v3 a).

(** Modelled from the spec: [Mat4.multiply], the matrix product [a b]:
    each column of the product is [a] applied to that column of [b]. *)
Definition multiply (a b : Mat4) : Mat4 :=
  let c0 := combine a (m0 b) (m1 b) (m2 b) (m3 b) in
  let c1 := combine a (m4 b) (m5 b) (m6 b) (m7 b) in
  let c2 := combine a (m8 b) (m9 b) (m10 b) (m11 b) in
  let c3 := combine a (m12 b) (m13 b) (m14 b) (m15 b) in
  mkMat4 (v0 c0) (v1 c0) (v2 c0) (v3 c0)
         (v0 c1) (v1 c1) (v2 c1) (v3 c1)
         (v0 c2) (v1 c2) (v2 c2) (v3 c2)
         (v0 c3) (v1 c3) (v2 c3) (v3 c3).

(** Modelled from the spec: [Mat4.invert], the inverse by cofactors;
    [None] when the determinant is zero (or not a number). *)
Definition invert (a : Mat4) : option Mat4 :=
  let '(mkMat4 a00 a01 a02 a03 a10 a11 a12 a13
               a20 a21 a22 a23 a30 a31 a32 a33) := a in
  let b00 := a00 * a11 - a01 * a10 in
  let b01 := a00 * a12 - a02 * a10 in
  let b02 := a00 * a13 - a03 * a10 in
  let b03 := a01 * a12 - a02 * a11 in
  let b04 := a01 * a13 - a03 * a11 in
  let b05 := a02 * a13 - a03 * a12 in
  let b06 := a20 * a31 - a21 * a30 in
  let b07 := a20 * a32 - a22 * a30 in
  let b08 := a20 * a33 - a23 * a30 in
  let b09 := a21 * a32 - a22 * a31 in
  let b10 := a21 * a33 - a23 * a31 in
  let b11 := a22 * a33 - a23 * a32 in
  let det :=
    b00 * b11 - b01 * b10 + b02 * b09 + b03 * b08 - b04 * b07 + b05 * b06 in
  if negb (JS.truthy det) then None
  else
    let det := 1 / det in
    Some (mkMat4
      (f32 ((a11 * b11 - a12 * b10 + a13 * b09) * det))
      (f32 ((a02 * b10 - a01 * b11 - a03 * b09) * det))
      (f32 ((a31 * b05 - a32 * b04 + a33 * b03) * det))
      (f32 ((a22 * b04 - a21 * b05 - a23 * b03) * det))
      (f32 ((a12 * b08 - a10 * b11 - a13 * b07) * det))
      (f32 ((a00 * b11 - a02 * b08 + a03 * b07) * det))
      (f32 ((a32 * b02 - a30 * b05 - a33 * b01) * det))
      (f32 ((a20 * b05 - a22 * b02 + a23 * b01) * det))
      (f32 ((a10 * b10 - a11 * b08 + a13 * b06) * det))
      (f32 ((a01 * b08 - a00 * b10 - a03 * b06) * det))
      (f32 ((a30 * b04 - a31 * b02 + a33 * b00) * det))
      (f32 ((a21 * b02 - a20 * b04 - a23 * b00) * det))
      (f32 ((a11 * b07 - a10 * b09 - a12 * b06) * det))
      (f32 ((a00 * b09 - a01 * b07 + a02 * b06) * det))
      (f32 ((a31 * b01 - a30 * b03 - a32 * b00) * det))
      (f32 ((a20 * b03 - a21 * b01 + a22 * b00) * det)))
  .

(** Modelled from the spec: [Vec3.add] and [Vec4.set]. *)
Definition add (a b : Vec3) : Vec3 :=
  mkVec3 (f32 (e0 a + e0 b)) (f32 (e1 a + e1 b)) (f32 (e2 a + e2 b)).
Definition set (x y z w : number) : Vec4 :=
  mkVec4 (f32 x) (f32 y) (f32 z) (f32 w).

(** [ObservablePoint3D.set] in the manner of the host's observable points:
    a falsy [x] is stored as [0]; a falsy [y] or [z] is stored as [0] when
    it is a zero and as the stored [x] otherwise; and the point is written
    only when a coordinate differs ([!==]) from the one it holds. *)
Definition point_set (x y z : number) (p : Point3D) : Point3D :=
  let _x := if JS.truthy x then x else 0 in
  let _y := if JS.truthy y then y else if JS.strict_neq y 0 then _x else 0 in
  let _z := if JS.truthy z then z else if JS.strict_neq z 0 then _x else 0 in
  if JS.strict_neq (qx p) _x || JS.strict_neq (qy p) _y || JS.strict_neq (qz p) _z
  then mkPoint3D _x _y _z
  else p.

(** A transform: the world position, forward and up vectors, the
    identifier of that world transform, and the vectors a change of the
    local transform will give the next time the transform is updated. *)
Record transform := mkTransform {
  t_worldID : Z;
  t_world : Vec3 * Vec3 * Vec3;
  t_pending : option (Vec3 * Vec3 * Vec3) }.

Definition update (t : transform) : transform :=
  match t_pending t with
  | Some world => mkTransform (t_worldID t + 1) world None
  | None => t
  end.

(** A new transform sits at the origin and looks along positive z; the
    constructor of the camera moves it to z = 5 and turns it to look along
    negative z, which shows in the world transform at the next update.
    The vectors are the exact ones; those the host computes from its
    rotation quaternion may differ from them in the last digits, so no
    theorem states a coordinate computed from this transform. *)
Definition camera_transform : transform :=
  mkTransform 0 (mkVec3 0 0 0, mkVec3 0 0 1, mkVec3 0 1 0)
              (Some (mkVec3 0 0 5, mkVec3 0 0 (-1), mkVec3 0 1 0)).

Lemma update_advances (t : transform) :
  (t_worldID t <= t_worldID (update t))%Z /\
  (t_worldID t = t_worldID (update t) ->
   fst (fst (t_world t)) = fst (fst (t_world (update t))) /\
   snd (fst (t_world t)) = snd (fst (t_world (update t))) /\
   snd (t_world t) = snd (t_world (update t))).
Proof.
  unfold update. destruct (t_pending t) as [w|]; simpl.
  - split; [lia | intros E; lia].
  - split; [lia | auto].
Qed.

Definition host : Host := {|
  Mat4_perspective := perspective;
  Mat4_lookAt := lookAt;
  Mat4_multiply := multiply;
  Mat4_invert := invert;
  Vec3_add := add;
  Vec4_set := set;
  Vec4_transformMat4 := transformMat4;
  ObservablePoint3D_set := point_set;
  Transform3D := transform;
  worldID := t_worldID;
  worldPosition := fun t => fst (fst (t_world t));
  worldForward := fun t => snd (fst (t_world t));
  worldUp := fun t => snd (t_world t);
  updateTransform := update;
  Camera_transform := camera_transform;
  updateTransform_advances := update_advances |}.

End Reference.

(** ** An example program *)

(** On the reference host: a renderer of 800 by 600, one camera, and the
    first frame's [prerender] event. *)
Module Example.

#[local] Existing Instance Reference.host.

Definition world : World.t :=
  World.emit_prerender (World.new_Camera (World.start 800 600)).

Definition renderer : Renderer := World.renderer world.

(** The camera of [world], after the first frame. *)
Definition camera : Camera.t := Camera.on_prerender Camera.init.

End Example.

(** * Properties *)

Ltac split_decide :=
  repeat match goal with
       | |- context [decide ?P] => destruct (decide P)
       end.

(** ** Reading the cached arrays *)

Module CoherenceFacts.
Section WithHost.
Context `{Host}.
Import Camera Coherence.

Ltac run_getter c :=
  destruct c as [i tr pa fo ne fa asp [p|] [v|] [vp|] [tg|]];
  unfold viewProjection, view, projection, target, cached, MatrixComponent_array,
    mbind, StateM_bind, mret, StateM_ret, gets, key_of, stored, store, id;
  simpl; split_decide; simpl in *; try congruence; try reflexivity.

(** A read returns the stored array while the slot's key is the camera's
    [id], and otherwise computes the array and stores it under [id]. *)
Lemma target_run (c : Camera.t) :
  target c =
    if decide (key_of (_target c) = Some (id c))
    then (stored Vec3_zero (_target c), c)
    else (target_now c, with__target (store (id c) (target_now c)) c).
Proof. run_getter c. Qed.

Lemma projection_run (r : Renderer) (c : Camera.t) :
  projection r c =
    if decide (key_of (_projection c) = Some (id c))
    then (stored Mat4_zero (_projection c), c)
    else (projection_now r c,
          with__projection (store (id c) (projection_now r c)) c).
Proof. run_getter c. Qed.

Lemma view_run (c : Camera.t) :
  view c =
    if decide (key_of (_view c) = Some (id c))
    then (stored Mat4_zero (_view c), c)
    else
      let '(tg, c') := target c in
      let a := Mat4_lookAt (worldPosition (transform c)) tg (worldUp (transform c)) in
      (a, with__view (store (id c) a) c').
Proof. run_getter c. Qed.

Lemma viewProjection_run (r : Renderer) (c : Camera.t) :
  viewProjection r c =
    if decide (key_of (_viewProjection c) = Some (id c))
    then (stored Mat4_zero (_viewProjection c), c)
    else
      let '(p, c1) := projection r c in
      let '(v, c2) := view c1 in
      let a := Mat4_multiply p v in
      (a, with__viewProjection (store (id c) a) c2).
Proof. run_getter c. Qed.

Lemma fresh_store {A} key (value : A) : fresh (store key value) key value.
Proof. intros mc k [= <-] [= <-]. split; [lia | auto]. Qed.

Lemma fresh_hit {A} (zeros : A) slot key value :
  fresh slot key value -> key_of slot = Some key -> stored zeros slot = value.
Proof.
  intros Hf Hk. destruct slot as [mc|]; [|discriminate].
  simpl in Hk. destruct (Hf mc key eq_refl Hk) as [_ E]. apply E. reflexivity.
Qed.

Lemma fresh_advance {A} slot key key' (value value' : A) :
  (key <= key')%Z -> (key = key' -> value = value') ->
  fresh slot key value -> fresh slot key' value'.
Proof.
  intros Hle Hv Hf mc k Hs Hk. destruct (Hf mc k Hs Hk) as [Hk1 Hk2].
  split; [lia |]. intros ->. assert (key = key') by lia. subst key'.
  rewrite Hk2 by reflexivity. auto.
Qed.

Lemma fresh_stale {A} slot key key' (value : A) :
  (key < key')%Z -> fresh slot key value -> stale slot key'.
Proof.
  intros Hlt Hf Hk. destruct slot as [mc|]; [|discriminate]. simpl in Hk.
  destruct (Hf mc key' eq_refl Hk). lia.
Qed.

(** The getters leave every field but their slots alone. *)
Lemma target_fields c :
  exists x, snd (target c) = with__target x c.
Proof.
  rewrite target_run. split_decide; simpl; eauto.
  exists (_target c). destruct c; reflexivity.
Qed.

Lemma projection_fields r c :
  exists x, snd (projection r c) = with__projection x c.
Proof.
  rewrite projection_run. split_decide; simpl; eauto.
  exists (_projection c). destruct c; reflexivity.
Qed.

Lemma view_fields c :
  exists x y, snd (view c) = with__view x (with__target y c).
Proof.
  rewrite view_run. split_decide; simpl.
  - exists (_view c), (_target c). destruct c; reflexivity.
  - destruct (target_fields c) as [y Ey].
    destruct (target c) as [tg c']; simpl in *. subst c'. eauto.
Qed.

Lemma viewProjection_fields r c :
  exists x y z u,
    snd (viewProjection r c) =
    with__viewProjection x (with__view y (with__target z (with__projection u c))).
Proof.
  rewrite viewProjection_run. split_decide; simpl.
  - exists (_viewProjection c), (_view c), (_target c), (_projection c).
    destruct c; reflexivity.
  - destruct (projection_fields r c) as [u Eu].
    destruct (projection r c) as [p c1]; simpl in *. subst c1.
    destruct (view_fields (with__projection u c)) as (y & z & Ey).
    destruct (view _) as [v c2]; simpl in *. subst c2. eauto.
Qed.

(** Reading keeps the caches coherent and returns the present value. *)
Lemma target_coherent r c :
  coherent r c -> fst (target c) = target_now c /\ coherent r (snd (target c)).
Proof.
  intros [Ht Hv Hp Hvp]. rewrite target_run. split_decide; simpl.
  - split; [eauto using fresh_hit | split; assumption].
  - split; [reflexivity | split; simpl; auto using fresh_store].
Qed.

Lemma projection_coherent r c :
  coherent r c ->
  fst (projection r c) = projection_now r c /\ coherent r (snd (projection r c)).
Proof.
  intros [Ht Hv Hp Hvp]. rewrite projection_run. split_decide; simpl.
  - split; [eauto using fresh_hit | split; assumption].
  - split; [reflexivity | split; simpl; auto using fresh_store].
Qed.

Lemma view_coherent r c :
  coherent r c -> fst (view c) = view_now c /\ coherent r (snd (view c)).
Proof.
  intros Hc. rewrite view_run. split_decide; simpl.
  - destruct Hc as [Ht Hv Hp Hvp].
    split; [eauto using fresh_hit | split; assumption].
  - destruct (target_coherent r c Hc) as [E [Ht Hv Hp Hvp]].
    destruct (target_fields c) as [x Ex].
    destruct (target c) as [tg c']; simpl in *. subst c' tg.
    split; [reflexivity | split; simpl; auto using fresh_store].
Qed.

Lemma viewProjection_coherent r c :
  coherent r c ->
  fst (viewProjection r c) = viewProjection_now r c /\
  coherent r (snd (viewProjection r c)).
Proof.
  intros Hc. rewrite viewProjection_run. split_decide; simpl.
  - destruct Hc as [Ht Hv Hp Hvp].
    split; [eauto using fresh_hit | split; assumption].
  - destruct (projection_coherent r c Hc) as [Ep Hc1].
    destruct (projection_fields r c) as [u Eu].
    destruct (projection r c) as [p c1]; simpl in *. subst c1 p.
    destruct (view_coherent r _ Hc1) as [Ev [Ht Hv Hp Hvp]].
    destruct (view_fields (with__projection u c)) as (y & z & Ey).
    destruct (view _) as [v c2]; simpl in *. subst c2 v.
    split; [reflexivity | split; simpl; auto using fresh_store].
Qed.

End WithHost.
End CoherenceFacts.

(** ** Changing the camera *)

Module CameraFacts.
Section WithHost.
Context `{Host}.
Import Camera Coherence CoherenceFacts.

(** A change that leaves the slots alone and does not lower [id] keeps
    the caches coherent, provided the present values are the same whenever
    [id] is. *)
Lemma coherent_move r r' c c' :
  _target c' = _target c -> _view c' = _view c ->
  _projection c' = _projection c -> _viewProjection c' = _viewProjection c ->
  (id c <= id c')%Z ->
  (id c = id c' ->
   target_now c = target_now c' /\ view_now c = view_now c' /\
   projection_now r c = projection_now r' c' /\
   viewProjection_now r c = viewProjection_now r' c') ->
  coherent r c -> coherent r' c'.
Proof.
  intros Et Ev Ep Evp Hle Hsame [Ht Hv Hp Hvp].
  split; [rewrite Et | rewrite Ev | rewrite Ep | rewrite Evp];
    (eapply fresh_advance; [exact Hle | | eassumption]);
    intros E; destruct (Hsame E) as (? & ? & ? & ?); assumption.
Qed.

(** After [_id++] every slot is stale. *)
Lemma incr_id_coherent r r' c : coherent r c -> coherent r' (incr_id c).
Proof.
  apply coherent_move; try reflexivity; unfold id, incr_id; simpl; lia.
Qed.

Lemma incr_id_stale r c :
  coherent r c ->
  let c' := incr_id c in
  stale (_projection c') (id c') /\ stale (_target c') (id c') /\
  stale (_view c') (id c') /\ stale (_viewProjection c') (id c').
Proof.
  intros [Ht Hv Hp Hvp]. simpl.
  assert (id c < id (incr_id c))%Z by (unfold id, incr_id; simpl; lia).
  repeat split; eapply fresh_stale; eauto.
Qed.

Lemma or_else_truthy a x y :
  JS.truthy_opt a = true -> JS.or_else a x = JS.or_else a y.
Proof.
  destruct a as [v|]; simpl; [|discriminate]. intros ->. reflexivity.
Qed.

Lemma transform_coherent r c t' :
  advances (transform c) t' -> coherent r c -> coherent r (with_transform t' c).
Proof.
  intros [Hle Hsame]. apply coherent_move; try reflexivity.
  - unfold id; simpl. lia.
  - unfold id; simpl. intros E.
    destruct (Hsame ltac:(lia)) as (Epos & Efwd & Eup).
    unfold viewProjection_now, view_now, target_now, projection_now; simpl.
    rewrite Epos, Efwd, Eup. auto.
Qed.

(** The [prerender] callback keeps the caches coherent, whatever the
    size of the renderer has become since they were filled. *)
Lemma on_prerender_coherent r r' c :
  coherent r c -> coherent r' (on_prerender c).
Proof.
  intros Hc. unfold on_prerender.
  assert (Hc1 : coherent r'
            (if negb (JS.truthy_opt (_aspect c)) then incr_id c else c)).
  { destruct (JS.truthy_opt (_aspect c)) eqn:Ea; simpl.
    - revert Hc. apply coherent_move; try reflexivity.
      intros _. unfold viewProjection_now, projection_now.
      rewrite (or_else_truthy _ _ (width r' / height r')%float Ea). auto.
    - eapply incr_id_coherent; eauto. }
  destruct (negb (bool_decide _)); [|assumption].
  apply transform_coherent; [apply updateTransform_advances | assumption].
Qed.

Lemma set_aspect_coherent r value c :
  coherent r c -> coherent r (set_aspect value c).
Proof.
  intros Hc. unfold set_aspect. destruct (JS.strict_neq_opt _ _); [|assumption].
  revert Hc. apply coherent_move; try reflexivity; unfold id; simpl; lia.
Qed.

Lemma set_fieldOfView_coherent r value c :
  coherent r c -> coherent r (set_fieldOfView value c).
Proof.
  intros Hc. unfold set_fieldOfView. destruct (JS.strict_neq _ _); [|assumption].
  revert Hc. apply coherent_move; try reflexivity; unfold id; simpl; lia.
Qed.

Lemma set_near_coherent r value c :
  coherent r c -> coherent r (set_near value c).
Proof.
  intros Hc. unfold set_near. destruct (JS.strict_neq _ _); [|assumption].
  revert Hc. apply coherent_move; try reflexivity; unfold id; simpl; lia.
Qed.

Lemma set_far_coherent r value c :
  coherent r c -> coherent r (set_far value c).
Proof.
  intros Hc. unfold set_far. destruct (JS.strict_neq _ _); [|assumption].
  revert Hc. apply coherent_move; try reflexivity; unfold id; simpl; lia.
Qed.

End WithHost.
End CameraFacts.

(** ** Coordinate conversion, step by step *)

Module ConversionFacts.
Section WithHost.
Context `{Host}.
Import Camera Coherence CoherenceFacts CameraFacts.

(** The point as [screenToWorld] leaves it, given the inverse of the
    view-projection matrix. *)
Definition unprojected (inverse : Mat4) (x y : number) (r : Renderer)
    (point : Point3D) : Point3D :=
  let clip :=
    Vec4_set (x / width r * 2 - 1) ((y / height r * 2 - 1) * -1) 1 1 in
  let world := Vec4_transformMat4 clip inverse in
  let w := JS.fround (1 / v3 world) in
  ObservablePoint3D_set (JS.fround (v0 world * w)) (JS.fround (v1 world * w))
                        (JS.fround (v2 world * w)) point.

Lemma screenToWorld_run x y distance point r c :
  screenToWorld x y distance point r c =
    let '(vp, c') := viewProjection r (set_far distance c) in
    match Mat4_invert vp with
    | None => ((None, point), c')
    | Some inverse =>
        let p := unprojected inverse x y r point in
        ((Some p, p), set_far (far c) c')
    end.
Proof.
  unfold screenToWorld, mbind, StateM_bind, mret, StateM_ret, gets, modify.
  destruct (viewProjection r (set_far distance c)) as [vp c'].
  destruct (Mat4_invert vp) as [inverse|]; reflexivity.
Qed.

(** The normalised device coordinate [worldToScreen] computes from a
    component of the clip-space vector and its [w]. *)
Definition divided (a w : number) : number :=
  if JS.strict_neq w 0 then JS.fround (a / w) else a.

Lemma clipSpace_run x y z r c :
  clipSpace x y z r c =
    let '(v, c1) := view c in
    let '(p, c2) := projection r c1 in
    let clip := Vec4_transformMat4 (Vec4_transformMat4 (Vec4_set x y z 1) v) p in
    (mkVec4 (divided (v0 clip) (v3 clip)) (divided (v1 clip) (v3 clip))
            (divided (v2 clip) (v3 clip)) (v3 clip), c2).
Proof.
  unfold clipSpace, mbind, StateM_bind, mret, StateM_ret, divided.
  destruct (view c) as [v c1]. destruct (projection r c1) as [p c2].
  simpl. destruct (JS.strict_neq _ 0); [reflexivity |].
  destruct (Vec4_transformMat4 _ p); reflexivity.
Qed.

Lemma worldToScreen_run x y z point r c :
  worldToScreen x y z point r c =
    let '(clip, c') := clipSpace x y z r c in
    (mkPoint ((v0 clip + 1) / 2 * width r)
             (height r - (v1 clip + 1) / 2 * height r), c').
Proof.
  unfold worldToScreen, mbind, StateM_bind, mret, StateM_ret.
  destruct (clipSpace x y z r c) as [clip c']. reflexivity.
Qed.

(** Reading the view matrix does not disturb the projection matrix. *)
Lemma projection_after_view r c :
  fst (projection r (snd (view c))) = fst (projection r c).
Proof.
  destruct (view_fields c) as (x & y & ->).
  rewrite !projection_run. simpl.
  change (id (with__view x (with__target y c))) with (id c).
  split_decide; reflexivity.
Qed.

Lemma screenToWorld_coherent x y distance point r c :
  coherent r c -> coherent r (snd (screenToWorld x y distance point r c)).
Proof.
  intros Hc. rewrite screenToWorld_run.
  pose proof (viewProjection_coherent r _ (set_far_coherent r distance c Hc)) as [_ Hc'].
  destruct (viewProjection r (set_far distance c)) as [vp c']. simpl in Hc'.
  destruct (Mat4_invert vp); simpl; auto using set_far_coherent.
Qed.

Lemma worldToScreen_coherent x y z point r c :
  coherent r c -> coherent r (snd (worldToScreen x y z point r c)).
Proof.
  intros Hc. rewrite worldToScreen_run, clipSpace_run.
  pose proof (view_coherent r c Hc) as [_ Hc1].
  destruct (view c) as [v c1]. simpl in Hc1.
  pose proof (projection_coherent r c1 Hc1) as [_ Hc2].
  destruct (projection r c1) as [p c2]. exact Hc2.
Qed.

End WithHost.
End ConversionFacts.

(** ** The invariant of the program *)

Module WorldFacts.
Section WithHost.
Context `{Host}.
Import Coherence CoherenceFacts CameraFacts ConversionFacts World.

(** Every camera is registered on the renderer, once and in the order of
    construction, and its caches are coherent. *)
Definition invariant (s : World.t) : Prop :=
  prerender (renderer s) = seq 0 (length (cameras s)) /\
  forall i c, cameras s !! i = Some c -> coherent (renderer s) c.

Lemma alter_each {A : Type} (f : A -> A) (n : nat) (l : list A) (i : nat) :
  foldl (fun cs j => alter f j cs) l (seq 0 n) !! i =
    if decide (i < n) then f <$> l !! i else l !! i.
Proof.
  induction n as [|n IH].
  - cbn [seq foldl]. destruct (decide (i < 0)); [lia | reflexivity].
  - rewrite seq_S, foldl_app. cbn [foldl Nat.add].
    destruct (decide (i = n)) as [->|Hne].
    + rewrite list_lookup_alter_eq, IH.
      repeat case_decide; try lia. reflexivity.
    + rewrite list_lookup_alter_ne by auto. rewrite IH.
      repeat case_decide; try lia; reflexivity.
Qed.

(** The [prerender] event runs the callback of every camera once. *)
Lemma emit_prerender_lookup s i :
  prerender (renderer s) = seq 0 (length (cameras s)) ->
  cameras (emit_prerender s) !! i = Camera.on_prerender <$> cameras s !! i.
Proof.
  intros E. unfold emit_prerender; simpl. rewrite E, alter_each.
  case_decide as Hi; [reflexivity |].
  rewrite lookup_ge_None_2 by lia. reflexivity.
Qed.

Lemma run_call_coherent k r c :
  permitted k c -> coherent r c -> coherent r (run_call k r c).
Proof.
  intros Hk Hc. destruct k; simpl in *.
  - apply set_aspect_coherent; assumption.
  - apply set_fieldOfView_coherent; assumption.
  - apply set_near_coherent; assumption.
  - apply set_far_coherent; assumption.
  - apply projection_coherent; assumption.
  - eapply target_coherent; eassumption.
  - eapply view_coherent; eassumption.
  - apply viewProjection_coherent; assumption.
  - apply screenToWorld_coherent; assumption.
  - apply worldToScreen_coherent; assumption.
  - revert Hc. apply coherent_move; try reflexivity. auto.
  - apply transform_coherent; assumption.
Qed.

Lemma init_coherent r : coherent r Camera.init.
Proof. split; intros mc k E; discriminate. Qed.

Lemma alter_each_length {A : Type} (f : A -> A) (js : list nat) (l : list A) :
  length (foldl (fun cs j => alter f j cs) l js) = length l.
Proof.
  revert l. induction js as [|j js IH]; intros l; simpl; [reflexivity |].
  rewrite IH. apply length_alter.
Qed.

Lemma emit_prerender_invariant s s' :
  cameras s' = cameras s -> prerender (renderer s') = prerender (renderer s) ->
  invariant s -> invariant (emit_prerender s').
Proof.
  intros Ec Ep [IHl IHc]. split.
  - simpl. rewrite alter_each_length. congruence.
  - intros i c E. rewrite emit_prerender_lookup in E by congruence.
    rewrite Ec in E. destruct (cameras s !! i) as [c0|] eqn:E0; [|discriminate].
    injection E as <-. eapply on_prerender_coherent. eauto.
Qed.

Theorem reachable_invariant s : reachable s -> invariant s.
Proof.
  induction 1 as [w h | s Hs IH | s Hs IH | s w h Hs IH | s i c k Hs IH Hi Hk].
  - split; [reflexivity |]. intros i c E. simpl in E.
    rewrite lookup_nil in E. discriminate.
  - destruct IH as [IHl IHc]. split.
    + cbn [new_Camera renderer cameras prerender]. rewrite IHl, length_app.
      cbn [length]. rewrite Nat.add_1_r, seq_S. reflexivity.
    + simpl. intros i c E. apply lookup_app_Some in E as [E | [_ E]].
      * apply IHc in E. destruct E; split; assumption.
      * apply list_lookup_singleton_Some in E as [_ <-]. apply init_coherent.
  - apply (emit_prerender_invariant s s); auto.
  - apply (emit_prerender_invariant s (resize w h s)); auto.
  - destruct IH as [IHl IHc]. split.
    + simpl. rewrite length_insert. exact IHl.
    + simpl. intros j c' E. destruct (decide (i = j)) as [<-|Hne].
      * rewrite list_lookup_insert_eq in E by (eapply lookup_lt_Some; eauto).
        injection E as <-. apply run_call_coherent; eauto.
      * rewrite list_lookup_insert_ne in E by assumption. eauto.
Qed.

(** The caches of every camera of a reachable state are coherent. *)
Lemma reachable_coherent s i c :
  reachable s -> cameras s !! i = Some c -> coherent (renderer s) c.
Proof. intros Hs. apply (reachable_invariant s Hs). Qed.

End WithHost.
End WorldFacts.

(** ** The example program *)

Lemma example_world_reachable : World.reachable Example.world.
Proof. apply World.reachable_prerender, World.reachable_new, World.reachable_start. Qed.

Lemma example_world_camera : World.cameras Example.world !! 0 = Some Example.camera.
Proof. reflexivity. Qed.

(** ** The cache key and the dirty counter *)

Section CacheKey.
Context `{Host}.
Import Camera Coherence CoherenceFacts CameraFacts WorldFacts.

(** A getter reads its slot lazily: while the slot's key is the camera's
    [id] it returns the stored array and changes nothing; when the key is
    another one it returns the array computed from the present fields and
    stores it under [id]. *)
Definition reads_lazily {A : Type} (getter : StateM Camera.t A)
      (slot : Camera.t -> option (MatrixComponent A)) (zeros : A)
      (now : Camera.t -> A) (c : Camera.t) : Prop :=
    (key_of (slot c) = Some (id c) -> getter c = (stored zeros (slot c), c)) /\
    (key_of (slot c) <> Some (id c) ->
     fst (getter c) = now c /\ slot (snd (getter c)) = store (id c) (now c)).

(** Every cached array of the camera will be recomputed by its next
    read. *)
Definition invalidated (c : Camera.t) : Prop :=
    stale (_projection c) (id c) /\ stale (_target c) (id c) /\
    stale (_view c) (id c) /\ stale (_viewProjection c) (id c).

(** A setter marks the camera dirty exactly when the value differs
    ([!==]) from the present one. *)
Definition marks_dirty {V : Type} (differs : V -> V -> bool)
      (field : Camera.t -> V) (setter : V -> Camera.t -> Camera.t)
      (c : Camera.t) : Prop :=
    forall value,
      (differs (field c) value = true ->
       field (setter value c) = value /\
       _id (setter value c) = (_id c + 1)%Z /\
       id (setter value c) = (id c + 1)%Z /\
       invalidated (setter value c)) /\
      (differs (field c) value = false -> setter value c = c).

Lemma projection_lazy r c :
    reads_lazily (projection r) _projection Mat4_zero (projection_now r) c.
Proof.
    split; intros Hk; rewrite projection_run; split_decide; try contradiction; auto.
Qed.

Lemma view_lazy r c :
    coherent r c -> reads_lazily view _view Mat4_zero view_now c.
Proof.
    intros Hc. split; intros Hk.
    - rewrite view_run. split_decide; [reflexivity | contradiction].
    - split; [apply (view_coherent r c Hc) |].
      rewrite view_run. split_decide; [contradiction |].
      destruct (target_coherent r c Hc) as [E _].
      destruct (target c) as [tg c']; simpl in *. subst tg. reflexivity.
Qed.

Lemma viewProjection_lazy r c :
    coherent r c ->
    reads_lazily (viewProjection r) _viewProjection Mat4_zero (viewProjection_now r) c.
Proof.
    intros Hc. split; intros Hk.
    - rewrite viewProjection_run. split_decide; [reflexivity | contradiction].
    - split; [apply (viewProjection_coherent r c Hc) |].
      rewrite viewProjection_run. split_decide; [contradiction |].
      destruct (projection_coherent r c Hc) as [Ep Hc1].
      destruct (projection_fields r c) as [u Eu].
      destruct (projection r c) as [p c1]; simpl in *. subst p c1.
      destruct (view_coherent r _ Hc1) as [Ev _].
      destruct (view _) as [v c2]; simpl in *. subst v. reflexivity.
Qed.

Lemma setter_marks_dirty {V : Type} (differs : V -> V -> bool)
      (field : Camera.t -> V) (put : V -> Camera.t -> Camera.t) setter r c :
    (forall value c, setter value c =
       if differs (field c) value then incr_id (put value c) else c) ->
    (forall c, field (incr_id c) = field c) ->
    (forall value c, field (put value c) = value /\ _id (put value c) = _id c /\
       transform (put value c) = transform c /\
       _projection (put value c) = _projection c /\ _target (put value c) = _target c /\
       _view (put value c) = _view c /\ _viewProjection (put value c) = _viewProjection c) ->
    coherent r c -> marks_dirty differs field setter c.
Proof.
    intros Hset Hincr Hput [Ht Hv Hp Hvp] value.
    destruct (Hput value c) as (Ef & Ei & Etr & Ep & Etg & Ev & Evp).
    rewrite Hset. split; intros ->; [|reflexivity].
    assert (Eid : id (incr_id (put value c)) = (id c + 1)%Z)
      by (unfold id; simpl; rewrite Ei, Etr; lia).
    repeat split.
    - rewrite Hincr. exact Ef.
    - simpl. rewrite Ei. reflexivity.
    - exact Eid.
    - simpl. rewrite Ep. eapply fresh_stale; [|exact Hp]. lia.
    - simpl. rewrite Etg. eapply fresh_stale; [|exact Ht]. lia.
    - simpl. rewrite Ev. eapply fresh_stale; [|exact Hv]. lia.
    - simpl. rewrite Evp. eapply fresh_stale; [|exact Hvp]. lia.
Qed.

(** Reading the projection matrix does not disturb the view matrix. *)
Lemma view_after_projection r c :
  fst (view (snd (projection r c))) = fst (view c).
Proof.
  destruct (projection_fields r c) as (u & ->).
  rewrite !view_run, !target_run. simpl.
  change (id (with__projection u c)) with (id c).
  split_decide; reflexivity.
Qed.

(** The view getter and the view-projection getter read lazily in every
    state of the camera, coherent or not: what they recompute is made of
    what the getters they call return. *)
Lemma view_lazy_any c :
  reads_lazily view _view Mat4_zero
    (fun c => Mat4_lookAt (worldPosition (transform c)) (fst (target c))
                          (worldUp (transform c))) c.
Proof.
  split; intros Hk; rewrite view_run; split_decide; try contradiction; auto.
  destruct (target c) as [tg c']. split; reflexivity.
Qed.

Lemma viewProjection_lazy_any r c :
  reads_lazily (viewProjection r) _viewProjection Mat4_zero
    (fun c => Mat4_multiply (fst (projection r c)) (fst (view c))) c.
Proof.
  split; intros Hk; rewrite viewProjection_run; split_decide;
    try contradiction; auto.
  pose proof (view_after_projection r c) as Ev.
  destruct (projection r c) as [p c1]; simpl in *.
  destruct (view c1) as [v c2]; simpl in *. subst v. split; reflexivity.
Qed.

(** A setter assigns exactly when the value differs ([!==]) from the
    present one, and then increments the dirty counter, and with it [id],
    by one. *)
Definition assigns {V : Type} (differs : V -> V -> bool)
    (field : Camera.t -> V) (setter : V -> Camera.t -> Camera.t)
    (c : Camera.t) : Prop :=
  forall value,
    (differs (field c) value = true ->
     field (setter value c) = value /\
     _id (setter value c) = (_id c + 1)%Z /\
     id (setter value c) = (id c + 1)%Z) /\
    (differs (field c) value = false -> setter value c = c).

Lemma setter_assigns {V : Type} (differs : V -> V -> bool)
    (field : Camera.t -> V) (put setter : V -> Camera.t -> Camera.t) c :
  (forall value c, setter value c =
     if differs (field c) value then incr_id (put value c) else c) ->
  (forall value c, field (incr_id (put value c)) = value /\
     _id (put value c) = _id c /\ transform (put value c) = transform c) ->
  assigns differs field setter c.
Proof.
  intros Hset Hput value. destruct (Hput value c) as (Ef & Ei & Etr).
  rewrite Hset. split; intros ->; [|reflexivity].
  repeat split.
  - exact Ef.
  - simpl. rewrite Ei. reflexivity.
  - unfold id; simpl. rewrite Ei, Etr. lia.
Qed.

(** C1.  For every state of a camera, reachable or not: [id] is the
    transform's [_worldID] plus the dirty counter [_id]; the projection,
    view and view-projection getters return the stored array, whatever it
    holds, and leave the camera untouched while the stored key is [id], and
    only when the key is another one do they recompute the array (from the
    parameters, or from what the getters they call return) and store it
    under [id]; and each of the four setters, given a value that differs
    ([!==]) from the present one, stores it and increments the dirty
    counter, while a value that is equal leaves the whole camera, counter
    and caches included, as it was.  For the cameras of a reachable program
    state, moreover, what is recomputed is the array of the present
    parameters and transform, and an increment of the dirty counter makes
    every cached array stale. *)
Theorem cache_key_and_dirty_counter (c : Camera.t) (r : Renderer) :
  id c = (worldID (transform c) + _id c)%Z /\
  reads_lazily (projection r) _projection Mat4_zero (projection_now r) c /\
  reads_lazily view _view Mat4_zero
    (fun c => Mat4_lookAt (worldPosition (transform c)) (fst (target c))
                          (worldUp (transform c))) c /\
  reads_lazily (viewProjection r) _viewProjection Mat4_zero
    (fun c => Mat4_multiply (fst (projection r c)) (fst (view c))) c /\
  assigns JS.strict_neq _fieldOfView set_fieldOfView c /\
  assigns JS.strict_neq _near set_near c /\
  assigns JS.strict_neq _far set_far c /\
  assigns JS.strict_neq_opt _aspect set_aspect c /\
  forall (s : World.t) (i : nat),
    World.reachable s -> World.cameras s !! i = Some c ->
    reads_lazily (projection (World.renderer s)) _projection Mat4_zero
                 (projection_now (World.renderer s)) c /\
    reads_lazily view _view Mat4_zero view_now c /\
    reads_lazily (viewProjection (World.renderer s)) _viewProjection Mat4_zero
                 (viewProjection_now (World.renderer s)) c /\
    marks_dirty JS.strict_neq _fieldOfView set_fieldOfView c /\
    marks_dirty JS.strict_neq _near set_near c /\
    marks_dirty JS.strict_neq _far set_far c /\
    marks_dirty JS.strict_neq_opt _aspect set_aspect c.
Proof.
  split; [reflexivity |].
  split; [apply projection_lazy |].
  split; [apply view_lazy_any |].
  split; [apply viewProjection_lazy_any |].
  split; [apply (setter_assigns _ _ with__fieldOfView); intros; simpl; auto |].
  split; [apply (setter_assigns _ _ with__near); intros; simpl; auto |].
  split; [apply (setter_assigns _ _ with__far); intros; simpl; auto |].
  split; [apply (setter_assigns _ _ with__aspect); intros; simpl; auto |].
  intros s i Hs Hi. pose proof (reachable_coherent s i c Hs Hi) as Hc.
  split; [apply projection_lazy |].
  split; [eapply view_lazy; eassumption |].
  split; [apply viewProjection_lazy; assumption |].
  assert (Hput : forall (V : Type) (differs : V -> V -> bool) (field : t -> V)
                     (put setter : V -> t -> t),
              (forall value c, setter value c =
                 if differs (field c) value then incr_id (put value c) else c) ->
              (forall c, field (incr_id c) = field c) ->
              (forall value c, field (put value c) = value /\ _id (put value c) = _id c /\
                 transform (put value c) = transform c /\
                 _projection (put value c) = _projection c /\
                 _target (put value c) = _target c /\
                 _view (put value c) = _view c /\
                 _viewProjection (put value c) = _viewProjection c) ->
              marks_dirty differs field setter c)
      by (intros; eapply setter_marks_dirty; eauto).
  split; [apply (Hput _ _ _ with__fieldOfView); intros; simpl; auto 10 |].
  split; [apply (Hput _ _ _ with__near); intros; simpl; auto 10 |].
  split; [apply (Hput _ _ _ with__far); intros; simpl; auto 10 |].
  apply (Hput _ _ _ with__aspect); intros; simpl; auto 10.
Qed.

End CacheKey.

Section CacheKeyExample.
#[local] Existing Instance Reference.host.

Lemma cache_key_and_dirty_counter_witness :
  reads_lazily (Camera.projection (World.renderer Example.world)) Camera._projection
    Mat4_zero (Coherence.projection_now (World.renderer Example.world)) Example.camera /\
  reads_lazily Camera.view Camera._view Mat4_zero Coherence.view_now Example.camera /\
  reads_lazily (Camera.viewProjection (World.renderer Example.world))
    Camera._viewProjection Mat4_zero
    (Coherence.viewProjection_now (World.renderer Example.world)) Example.camera /\
  marks_dirty JS.strict_neq Camera._fieldOfView Camera.set_fieldOfView Example.camera /\
  marks_dirty JS.strict_neq Camera._near Camera.set_near Example.camera /\
  marks_dirty JS.strict_neq Camera._far Camera.set_far Example.camera /\
  marks_dirty JS.strict_neq_opt Camera._aspect Camera.set_aspect Example.camera.
Proof.
  destruct (cache_key_and_dirty_counter Example.camera (World.renderer Example.world))
    as (_ & _ & _ & _ & _ & _ & _ & _ & Hr).
  exact (Hr Example.world 0 example_world_reachable example_world_camera).
Defined.

End CacheKeyExample.

(** ** The matrices the getters return *)

Section Matrices.
Context `{Host}.
Import Camera Coherence CoherenceFacts CameraFacts WorldFacts.

(** The aspect ratio as the claim C2 words it: the camera's own whenever
    one is set. *)
Definition claimed_aspect (c : Camera.t) (r : Renderer) : number :=
    match _aspect c with
    | Some a => a
    | None => (width r / height r)%float
    end.

(** C2, amended.  For every camera of a reachable program state, the
    [projection] getter returns [Mat4.perspective] of the field of view
    times [Math.PI / 180], the aspect ratio, and the near and far planes,
    where the aspect ratio is the camera's own when that is a number other
    than [0] and [NaN], and the renderer's width divided by its height
    otherwise. *)
Theorem projection_is_perspective (s : World.t) (i : nat) (c : Camera.t) :
    World.reachable s -> World.cameras s !! i = Some c ->
    fst (projection (World.renderer s) c) =
      Mat4_perspective
        (_fieldOfView c * (JS.PI / 180))
        (match _aspect c with
         | Some a => if JS.truthy a then a
                     else width (World.renderer s) / height (World.renderer s)
         | None => width (World.renderer s) / height (World.renderer s)
         end)
        (_near c) (_far c).
Proof.
    intros Hs Hi.
    apply (projection_coherent _ c (reachable_coherent s i c Hs Hi)).
Qed.

(** C3.  For every camera of a reachable program state, the [target]
    getter returns [Vec3.add] of the world position and the world forward
    vector, and the [view] getter returns [Mat4.lookAt] of the world
    position, that target and the world up vector. *)
Theorem view_is_lookAt (s : World.t) (i : nat) (c : Camera.t) :
    World.reachable s -> World.cameras s !! i = Some c ->
    fst (target c) =
      Vec3_add (worldPosition (transform c)) (worldForward (transform c)) /\
    fst (view c) =
      Mat4_lookAt (worldPosition (transform c)) (fst (target c))
                  (worldUp (transform c)).
Proof.
    intros Hs Hi. pose proof (reachable_coherent s i c Hs Hi) as Hc.
    destruct (target_coherent _ c Hc) as [Et _].
    destruct (view_coherent _ c Hc) as [Ev _].
    rewrite Ev, Et. split; reflexivity.
Qed.

(** C4.  For every camera of a reachable program state, the
    [viewProjection] getter returns [Mat4.multiply] of what the
    [projection] getter returns and what the [view] getter returns, in
    that order. *)
Theorem viewProjection_is_product (s : World.t) (i : nat) (c : Camera.t) :
    World.reachable s -> World.cameras s !! i = Some c ->
    fst (viewProjection (World.renderer s) c) =
      Mat4_multiply (fst (projection (World.renderer s) c)) (fst (view c)).
Proof.
    intros Hs Hi. pose proof (reachable_coherent s i c Hs Hi) as Hc.
    destruct (projection_coherent _ c Hc) as [Ep _].
    destruct (view_coherent _ c Hc) as [Ev _].
    destruct (viewProjection_coherent _ c Hc) as [Evp _].
    rewrite Evp, Ep, Ev. reflexivity.
Qed.

End Matrices.

Section MatricesExample.
#[local] Existing Instance Reference.host.

Lemma projection_is_perspective_witness :
  fst (Camera.projection (World.renderer Example.world) Example.camera) =
    Mat4_perspective
      (Camera._fieldOfView Example.camera * (JS.PI / 180))
      (match Camera._aspect Example.camera with
       | Some a => if JS.truthy a then a
                   else width (World.renderer Example.world)
                        / height (World.renderer Example.world)
       | None => width (World.renderer Example.world)
                 / height (World.renderer Example.world)
       end)
      (Camera._near Example.camera) (Camera._far Example.camera).
Proof.
  exact (projection_is_perspective Example.world 0 Example.camera
           example_world_reachable example_world_camera).
Defined.

(** The program of the counterexample to C2: the example program, whose
    camera is then given the aspect ratio 0. *)
Definition zero_aspect_world : World.t :=
  World.mk (World.renderer Example.world)
           (<[0 := World.run_call (World.SetAspect (Some 0%float))
                     (World.renderer Example.world) Example.camera]>
              (World.cameras Example.world))
           (World.Camera_main Example.world).

Definition zero_aspect_camera : Camera.t :=
  Camera.set_aspect (Some 0%float) Example.camera.

Lemma zero_aspect_world_reachable : World.reachable zero_aspect_world.
Proof.
  apply (World.reachable_call Example.world 0 Example.camera);
    [apply example_world_reachable | reflexivity | exact I].
Qed.

(** C2 as stated fails: a camera whose aspect ratio is set to 0, on a
    renderer of 800 by 600, is a camera of a reachable state whose
    [projection] is not the perspective matrix of its own aspect ratio. *)
Lemma projection_ignores_zero_aspect :
  World.reachable zero_aspect_world /\
  World.cameras zero_aspect_world !! 0 = Some zero_aspect_camera /\
  Camera.aspect zero_aspect_camera = Some 0%float /\
  fst (Camera.projection (World.renderer zero_aspect_world) zero_aspect_camera) <>
    Mat4_perspective
      (Camera._fieldOfView zero_aspect_camera * (JS.PI / 180))
      (claimed_aspect zero_aspect_camera (World.renderer zero_aspect_world))
      (Camera._near zero_aspect_camera) (Camera._far zero_aspect_camera).
Proof.
  split; [apply zero_aspect_world_reachable |].
  split; [reflexivity |]. split; [reflexivity |].
  intros E. apply (f_equal (fun m => (m0 m <? 2)%float)) in E.
  vm_compute in E. discriminate.
Qed.

(** Why a resize comes with the next [prerender] event in [World.reachable]:
    a camera without an aspect ratio of its own that is read, resized under
    and read again before the event still returns the matrix of the old
    size. *)
Lemma projection_stale_after_resize :
  let c := snd (Camera.projection Example.renderer Example.camera) in
  let r := World.renderer (World.resize 400 400 Example.world) in
  fst (Camera.projection r c) =
    fst (Camera.projection Example.renderer Example.camera) /\
  fst (Camera.projection r c) <> Coherence.projection_now r c /\
  fst (Camera.projection r (Camera.on_prerender c)) = Coherence.projection_now r c.
Proof.
  split; [vm_compute; reflexivity |]. split; [|vm_compute; reflexivity].
  intros E. apply (f_equal (fun m => (m0 m <? 1.5)%float)) in E.
  vm_compute in E. discriminate.
Qed.

Lemma view_is_lookAt_witness :
  fst (Camera.target Example.camera) =
    Vec3_add (worldPosition (Camera.transform Example.camera))
             (worldForward (Camera.transform Example.camera)) /\
  fst (Camera.view Example.camera) =
    Mat4_lookAt (worldPosition (Camera.transform Example.camera))
                (fst (Camera.target Example.camera))
                (worldUp (Camera.transform Example.camera)).
Proof.
  exact (view_is_lookAt Example.world 0 Example.camera
           example_world_reachable example_world_camera).
Defined.

Lemma viewProjection_is_product_witness :
  fst (Camera.viewProjection (World.renderer Example.world) Example.camera) =
    Mat4_multiply (fst (Camera.projection (World.renderer Example.world) Example.camera))
                  (fst (Camera.view Example.camera)).
Proof.
  exact (viewProjection_is_product Example.world 0 Example.camera
           example_world_reachable example_world_camera).
Defined.

End MatricesExample.

(** ** Coordinate conversion *)

(** [===] on numbers is symmetric. *)
Lemma SFeqb_sym (f g : spec_float) : SFeqb f g = SFeqb g f.
Proof.
  unfold SFeqb, SFcompare.
  destruct f as [s|s| |s m e], g as [s'|s'| |s' m' e']; try reflexivity;
    try (destruct s, s'; reflexivity).
  change (PosDef.Pos.compare_cont Eq m m') with (m ?= m')%positive.
  change (PosDef.Pos.compare_cont Eq m' m) with (m' ?= m)%positive.
  destruct s, s'; try reflexivity.
  all: rewrite (Z.compare_antisym e e'); destruct (e ?= e')%Z; simpl;
    try reflexivity;
    rewrite (Pos.compare_antisym m m'); destruct (m ?= m')%positive; reflexivity.
Qed.

Lemma strict_neq_sym (x y : number) : JS.strict_neq x y = JS.strict_neq y x.
Proof.
  unfold JS.strict_neq, JS.strict_eq. rewrite !FloatAxioms.eqb_spec.
  rewrite SFeqb_sym. reflexivity.
Qed.

Section Conversion.
Context `{Host}.
Import Camera Coherence CoherenceFacts CameraFacts ConversionFacts.

(** Reading the view-projection matrix leaves the far plane alone. *)
Lemma far_after_viewProjection r c :
  _far (snd (viewProjection r c)) = _far c.
Proof.
  destruct (viewProjection_fields r c) as (x & y & z & u & E).
  rewrite E. reflexivity.
Qed.

(** What [far] is after [screenToWorld]: restored when the matrix could be
    inverted, and left as the setter put it when it could not. *)
Lemma far_after_screenToWorld x y distance point r c :
  _far (snd (screenToWorld x y distance point r c)) =
    match Mat4_invert (fst (viewProjection r (set_far distance c))) with
    | Some _ => _far c
    | None => if JS.strict_neq (_far c) distance then distance else _far c
    end.
Proof.
  rewrite screenToWorld_run.
  pose proof (far_after_viewProjection r (set_far distance c)) as Efar.
  destruct (viewProjection r (set_far distance c)) as [vp c']. simpl in *.
  assert (E0 : _far (set_far distance c) =
               if JS.strict_neq (_far c) distance then distance else _far c)
    by (unfold set_far; destruct (JS.strict_neq (_far c) distance); reflexivity).
  destruct (Mat4_invert vp) as [inverse|]; simpl; [|congruence].
  unfold far, set_far at 1.
  destruct (JS.strict_neq (_far c') (_far c)) eqn:E2; [reflexivity |].
  rewrite Efar, E0 in *.
  destruct (JS.strict_neq (_far c) distance) eqn:E1; [|reflexivity].
  rewrite strict_neq_sym in E2. congruence.
Qed.

(** C5.  For every call of [screenToWorld]: when [Mat4.invert] fails on the
    view-projection matrix (the one read after [far] was set to the
    distance), the method returns [undefined] and the point it was given is
    as it was; otherwise it returns the point, as [point.set] leaves it when
    given the product of the inverse and the clip-space position
    [(x / width * 2 - 1, (y / height * 2 - 1) * -1, 1, 1)], divided by its
    [w]. *)
Theorem screenToWorld_result (c : Camera.t) (r : Renderer)
    (x y distance : number) (point : Point3D) :
  (Mat4_invert (fst (viewProjection r (set_far distance c))) = None ->
   fst (screenToWorld x y distance point r c) = (None, point)) /\
  (forall inverse,
   Mat4_invert (fst (viewProjection r (set_far distance c))) = Some inverse ->
   let clip :=
     Vec4_set (x / width r * 2 - 1) ((y / height r * 2 - 1) * -1) 1 1 in
   let world := Vec4_transformMat4 clip inverse in
   let w := JS.fround (1 / v3 world) in
   let p := ObservablePoint3D_set
              (JS.fround (v0 world * w)) (JS.fround (v1 world * w))
              (JS.fround (v2 world * w)) point in
   fst (screenToWorld x y distance point r c) = (Some p, p)).
Proof.
  rewrite screenToWorld_run.
  destruct (viewProjection r (set_far distance c)) as [vp c']. simpl.
  split.
  - intros ->. reflexivity.
  - intros inverse ->. reflexivity.
Qed.

(** C6.  For every camera and world point, [worldToScreen] transforms
    [(x, y, z, 1)] by what the [view] getter returns and then by what the
    [projection] getter returns, divides the first three components by the
    fourth only when the fourth is not zero ([!== 0]), and returns the
    point [((ndcX + 1) / 2 * width, height - (ndcY + 1) / 2 * height)]. *)
Theorem worldToScreen_result (c : Camera.t) (r : Renderer)
    (x y z : number) (point : Point) :
  let clip :=
    Vec4_transformMat4
      (Vec4_transformMat4 (Vec4_set x y z 1) (fst (view c)))
      (fst (projection r c)) in
  let w := v3 clip in
  let ndc a := if JS.strict_neq w 0 then JS.fround (a / w) else a in
  fst (clipSpace x y z r c) =
    mkVec4 (ndc (v0 clip)) (ndc (v1 clip)) (ndc (v2 clip)) w /\
  fst (worldToScreen x y z point r c) =
    mkPoint ((ndc (v0 clip) + 1) / 2 * width r)
            (height r - (ndc (v1 clip) + 1) / 2 * height r).
Proof.
  intros clip w ndc.
  assert (E : fst (clipSpace x y z r c) =
              mkVec4 (ndc (v0 clip)) (ndc (v1 clip)) (ndc (v2 clip)) w).
  { rewrite clipSpace_run. subst clip w ndc.
    rewrite <- (projection_after_view r c).
    destruct (view c) as [v c1]. simpl.
    destruct (projection r c1) as [p c2]. reflexivity. }
  split; [exact E |].
  rewrite worldToScreen_run. destruct (clipSpace x y z r c) as [a c'].
  simpl in *. subst a. reflexivity.
Qed.

(** C7 fails on the code.  When [Mat4.invert] fails and the distance
    differs ([!==]) from the far plane, [screenToWorld] returns with the
    far plane still set to the distance. *)
Theorem screenToWorld_failure_keeps_distance (c : Camera.t) (r : Renderer)
    (x y distance : number) (point : Point3D) :
  Mat4_invert (fst (viewProjection r (set_far distance c))) = None ->
  JS.strict_neq (far c) distance = true ->
  far (snd (screenToWorld x y distance point r c)) = distance.
Proof.
  intros Hinv Hneq. unfold far in *.
  rewrite far_after_screenToWorld, Hinv, Hneq. reflexivity.
Qed.

End Conversion.

Section ConversionExample.
#[local] Existing Instance Reference.host.

Lemma screenToWorld_result_witness :
  fst (Camera.screenToWorld 400 300 0 (mkPoint3D 7 7 7) Example.renderer Example.camera)
    = (None, mkPoint3D 7 7 7) /\
  exists inverse,
    Mat4_invert (fst (Camera.viewProjection Example.renderer
                        (Camera.set_far 10 Example.camera))) = Some inverse /\
    let clip :=
      Vec4_set (400 / width Example.renderer * 2 - 1)
               ((300 / height Example.renderer * 2 - 1) * -1) 1 1 in
    let world := Vec4_transformMat4 clip inverse in
    let w := JS.fround (1 / v3 world) in
    let p := ObservablePoint3D_set
               (JS.fround (v0 world * w)) (JS.fround (v1 world * w))
               (JS.fround (v2 world * w)) (mkPoint3D 7 7 7) in
    fst (Camera.screenToWorld 400 300 10 (mkPoint3D 7 7 7)
           Example.renderer Example.camera) = (Some p, p).
Proof.
  split.
  - apply (screenToWorld_result Example.camera Example.renderer 400 300 0).
    vm_compute. reflexivity.
  - destruct (Mat4_invert (fst (Camera.viewProjection Example.renderer
                                  (Camera.set_far 10 Example.camera))))
      as [inverse|] eqn:E; [|vm_compute in E; discriminate].
    exists inverse. split; [reflexivity |].
    apply (proj2 (screenToWorld_result Example.camera Example.renderer
                    400 300 10 (mkPoint3D 7 7 7))).
    exact E.
Defined.

(** The failing input of C7: the distance 0 on the example camera, whose
    far plane is 1000 before the call and 0 after it. *)
Lemma screenToWorld_failure_keeps_distance_witness :
  Camera.far Example.camera = 1000%float /\
  Camera.far (snd (Camera.screenToWorld 400 300 0 (mkPoint3D 7 7 7)
                     Example.renderer Example.camera)) = 0%float.
Proof.
  split; [reflexivity |].
  apply (screenToWorld_failure_keeps_distance Example.camera Example.renderer);
    vm_compute; reflexivity.
Defined.

End ConversionExample.

(** ** The prerender event *)

Section Prerender.
Context `{Host}.
Import Camera WorldFacts.

(** C8, amended.  On every [prerender] event of a reachable program state,
    the callback of every camera runs once.  It increments the dirty
    counter if and only if the aspect ratio is falsy (not set, or set to
    [0] or [NaN]); it replaces the transform by [updateTransform] of it if
    the camera has no parent and leaves the transform alone if it has one;
    it changes nothing else; so when the aspect ratio is a number other than
    [0] and [NaN] and a parent exists, the camera is as it was. *)
Theorem prerender_callback (s : World.t) (i : nat) (c : Camera.t) :
  World.reachable s -> World.cameras s !! i = Some c ->
  World.cameras (World.emit_prerender s) !! i = Some (on_prerender c) /\
  (_id (on_prerender c) = (_id c + 1)%Z <-> JS.truthy_opt (_aspect c) = false) /\
  (_id (on_prerender c) = _id c <-> JS.truthy_opt (_aspect c) = true) /\
  transform (on_prerender c) =
    match parent c with
    | Some _ => transform c
    | None => updateTransform (transform c)
    end /\
  on_prerender c =
    with_transform (transform (on_prerender c)) (with__id (_id (on_prerender c)) c) /\
  (JS.truthy_opt (_aspect c) = true -> is_Some (parent c) -> on_prerender c = c).
Proof.
  intros Hs Hi. split.
  { rewrite emit_prerender_lookup by apply (reachable_invariant s Hs).
    rewrite Hi. reflexivity. }
  unfold on_prerender.
  destruct c as [n tr pa fo ne fa asp p v vp tg]; simpl.
  destruct (JS.truthy_opt asp), pa as [q|]; simpl;
    repeat split; intros; try reflexivity; try lia; try discriminate.
  all: match goal with
       | E : is_Some None |- _ => destruct E; discriminate
       end.
Qed.

End Prerender.

Section PrerenderExample.
#[local] Existing Instance Reference.host.

Lemma prerender_callback_witness :
  World.cameras (World.emit_prerender Example.world) !! 0 =
    Some (Camera.on_prerender Example.camera) /\
  Camera._id (Camera.on_prerender Example.camera) = (Camera._id Example.camera + 1)%Z.
Proof.
  destruct (prerender_callback Example.world 0 Example.camera
              example_world_reachable example_world_camera)
    as (Hrun & Hincr & _).
  split; [exact Hrun |]. apply Hincr. reflexivity.
Defined.

(** The program of the counterexample to C8: the example program, whose
    camera is then given the aspect ratio 0 and a parent. *)
Definition attached_world : World.t :=
  World.mk (World.renderer zero_aspect_world)
           (<[0 := World.run_call (World.SetParent (Some 0))
                     (World.renderer zero_aspect_world) zero_aspect_camera]>
              (World.cameras zero_aspect_world))
           (World.Camera_main zero_aspect_world).

Definition attached_camera : Camera.t :=
  Camera.with_parent (Some 0) zero_aspect_camera.

(** C8 as stated fails: a camera of a reachable state with an explicit
    aspect ratio (0) and a parent, whose callback increments the dirty
    counter and so does change the camera. *)
Lemma prerender_changes_zero_aspect_camera :
  World.reachable attached_world /\
  World.cameras attached_world !! 0 = Some attached_camera /\
  Camera.aspect attached_camera = Some 0%float /\
  Camera.parent attached_camera = Some 0 /\
  Camera._id (Camera.on_prerender attached_camera) =
    (Camera._id attached_camera + 1)%Z /\
  Camera.on_prerender attached_camera <> attached_camera.
Proof.
  split.
  { apply (World.reachable_call zero_aspect_world 0 zero_aspect_camera);
      [apply zero_aspect_world_reachable | reflexivity | exact I]. }
  repeat split.
  intros E. apply (f_equal Camera._id) in E. vm_compute in E. discriminate.
Qed.

End PrerenderExample.

(** ** The main camera *)

Section MainCamera.
Context `{Host}.
Import World.

(** Constructing cameras [n] times in a row. *)
Definition construct (n : nat) (s : World.t) : World.t :=
  Nat.iter n new_Camera s.

Lemma new_Camera_keeps_main s main :
  Camera_main s = Some main -> Camera_main (new_Camera s) = Some main.
Proof. unfold new_Camera; simpl. intros ->. reflexivity. Qed.

Lemma construct_keeps_main n s main :
  Camera_main s = Some main -> Camera_main (construct n s) = Some main.
Proof.
  intros E. induction n as [|n IH]; [exact E |].
  unfold construct in *. simpl. apply new_Camera_keeps_main, IH.
Qed.

(** In a reachable state [Camera.main] is unset while there is no camera
    and is the first camera from then on. *)
Lemma reachable_main s :
  reachable s ->
  Camera_main s = match cameras s with [] => None | _ :: _ => Some 0 end.
Proof.
  induction 1 as [w h | s Hs IH | s Hs IH | s w h Hs IH | s i c k Hs IH Hi Hk].
  - reflexivity.
  - unfold new_Camera; simpl. rewrite IH.
    destruct (cameras s); reflexivity.
  - simpl. rewrite IH.
    pose proof (WorldFacts.alter_each_length Camera.on_prerender
                  (prerender (renderer s)) (cameras s)) as El.
    destruct (cameras s), (foldl _ _ _); simpl in El; try reflexivity; discriminate.
  - simpl. rewrite IH.
    pose proof (WorldFacts.alter_each_length Camera.on_prerender
                  (prerender (renderer s)) (cameras s)) as El.
    destruct (cameras s), (foldl _ _ _); simpl in El; try reflexivity; discriminate.
  - simpl. rewrite IH.
    pose proof (length_insert (cameras s) i (run_call k (renderer s) c)) as El.
    destruct (cameras s), (<[i:=_]> _); simpl in El; try reflexivity; discriminate.
Qed.

(** C10.  In every reachable program state that has a camera,
    [Camera.main] is the first camera constructed (the camera with
    reference 0), and constructing any number of further cameras leaves
    it so. *)
Theorem main_is_first_camera (s : World.t) (n : nat) :
  reachable s -> cameras s <> [] ->
  Camera_main s = Some 0 /\
  Camera_main (construct n s) = Some 0 /\
  cameras (construct n s) !! 0 = cameras s !! 0.
Proof.
  intros Hs Hne.
  assert (E : Camera_main s = Some 0)
    by (rewrite (reachable_main s Hs); destruct (cameras s); congruence).
  split; [exact E |]. split; [apply construct_keeps_main, E |].
  induction n as [|n IH]; [reflexivity |].
  unfold construct in *. simpl. rewrite lookup_app_l; [exact IH |].
  destruct (cameras (Nat.iter n new_Camera s)); [|simpl; lia].
  rewrite lookup_nil in IH. destruct (cameras s); [congruence | discriminate].
Qed.

End MainCamera.

Section MainCameraExample.
#[local] Existing Instance Reference.host.

Lemma main_is_first_camera_witness :
  World.Camera_main Example.world = Some 0 /\
  World.Camera_main (construct 3 Example.world) = Some 0 /\
  World.cameras (construct 3 Example.world) !! 0 = World.cameras Example.world !! 0.
Proof.
  apply (main_is_first_camera Example.world 3 example_world_reachable).
  discriminate.
Defined.

End MainCameraExample.

(** ** Rendering a mesh *)

Section Render.
Import MeshShader.

(** The call that adds one set of vertex data under a name, if the data is
    there. *)
Definition attribute_call (id : string) (size : Z)
    (a : option MeshGeometryAttribute) : list geometry_call :=
  match a with
  | Some a => [addAttribute id (buffer a) size false (componentType a) (stride a)]
  | None => []
  end.

(** [addGeometryAttributes] adds the index (as unsigned 32-bit integers),
    the positions, the first set of texture coordinates, the normals and the
    tangents, in this order, each only when the geometry has it, and changes
    nothing else of the geometry. *)
Lemma addGeometryAttributes_calls (g : MeshGeometry3D) :
  addGeometryAttributes g =
    mkGeometry (indices g) (positions g) (uvs g) (normals g) (tangents g)
      (calls g
       ++ match indices g with
          | Some a => [addIndex (new_Uint32Array (buffer a))]
          | None => []
          end
       ++ attribute_call "a_Position" 3 (positions g)
       ++ attribute_call "a_UV1" 2 (uvs g ≫= head)
       ++ attribute_call "a_Normal" 3 (normals g)
       ++ attribute_call "a_Tangent" 4 (tangents g))
      (_shaders g).
Proof.
  destruct g as [ix ps uv ns ts cs shs].
  destruct ix, ps, uv as [[|u us]|], ns, ts;
    cbv [addGeometryAttributes call indices positions uvs normals tangents
         calls _shaders attribute_call mbind option_bind head];
    rewrite <- ?(app_assoc cs), ?app_nil_r; reflexivity.
Qed.

Lemma hasShaderAttributes_added shader g :
  hasShaderAttributes shader (addShaderAttributes shader g) = true.
Proof.
  unfold hasShaderAttributes, addShaderAttributes. simpl.
  apply bool_decide_eq_true. rewrite addGeometryAttributes_calls. simpl.
  apply elem_of_app. right. apply list_elem_of_singleton. reflexivity.
Qed.

(** What [render] does to the geometry: the attributes are added exactly
    when the geometry does not have them for this shader; afterwards it has
    them, and a second [render] adds nothing. *)
Lemma render_geometry shader g state0 drawMode0 :
  let g' := fst (render shader g state0 drawMode0) in
  g' = (if hasShaderAttributes shader g then g else addShaderAttributes shader g) /\
  hasShaderAttributes shader g' = true /\
  forall state1 drawMode1, fst (render shader g' state1 drawMode1) = g'.
Proof.
  unfold render; simpl.
  assert (E : hasShaderAttributes shader
                (if negb (hasShaderAttributes shader g)
                 then addShaderAttributes shader g else g) = true).
  { destruct (hasShaderAttributes shader g) eqn:E; simpl; [exact E |].
    apply hasShaderAttributes_added. }
  split; [destruct (hasShaderAttributes shader g); reflexivity |].
  split; [exact E |]. intros state1 drawMode1. rewrite E. reflexivity.
Qed.

(** What [render] asks of the renderer: to bind the shader, to set the
    state (the given one, or the default of the shader), to bind the geometry
    (which then has the attributes of the shader) and to draw; with the draw
    mode given if one is given and it is not 0, and the default of the shader
    otherwise. *)
Lemma render_commands shader g state0 drawMode0 :
  let g' := fst (render shader g state0 drawMode0) in
  snd (render shader g state0 drawMode0) =
    [ shader_bind shader false;
      state_set (match state0 with Some s => s | None => state shader end);
      geometry_bind g' shader;
      geometry_draw (match drawMode0 with
                     | Some mode => if bool_decide (mode = 0%Z)
                                    then drawMode shader else mode
                     | None => drawMode shader
                     end) ].
Proof. destruct state0, drawMode0; reflexivity. Qed.

(** C9 fails on the code.  Asked to draw with the mode [POINTS], a new
    mesh shader binds, sets the state and binds the geometry as claimed, and
    then draws with its default mode, [TRIANGLES]. *)
Theorem render_draws_TRIANGLES_for_POINTS (g : MeshGeometry3D)
    (state0 : option State) :
  POINTS <> TRIANGLES /\
  snd (render new g state0 (Some POINTS)) =
    [ shader_bind new false;
      state_set (default (state new) state0);
      geometry_bind (fst (render new g state0 (Some POINTS))) new;
      geometry_draw TRIANGLES ].
Proof.
  split; [discriminate |]. rewrite render_commands.
  destruct state0; reflexivity.
Qed.

End Render.

(** * Further properties of the camera *)

(** ** [===] on numbers *)

(** Every number but [NaN] equals itself, and everything differs from
    [NaN]. *)
Lemma SFcompare_refl (f : spec_float) : f <> S754_nan -> SFcompare f f = Some Eq.
Proof.
  destruct f as [s|s| |s m e]; intros Hn; simpl.
  - reflexivity.
  - destruct s; reflexivity.
  - congruence.
  - change (PosDef.Pos.compare_cont Eq m m) with (m ?= m)%positive.
    rewrite Z.compare_refl, Pos.compare_refl. destruct s; reflexivity.
Qed.

Lemma SFeqb_refl_of_eq (f g : spec_float) : SFeqb f g = true -> SFeqb f f = true.
Proof.
  intros E. unfold SFeqb. rewrite SFcompare_refl; [reflexivity |].
  intros ->. discriminate.
Qed.

Lemma SFeqb_nan (f g : spec_float) : SFeqb f f = false -> SFeqb g f = false.
Proof.
  intros E. assert (f = S754_nan) as ->.
  { destruct f as [s|s| |s m e]; try reflexivity;
      unfold SFeqb in E; rewrite SFcompare_refl in E; discriminate. }
  destruct g; reflexivity.
Qed.

Lemma strict_neq_refl_of_eq (x y : number) :
  JS.strict_neq x y = false -> JS.strict_neq x x = false.
Proof.
  unfold JS.strict_neq, JS.strict_eq. rewrite !FloatAxioms.eqb_spec.
  intros E. apply negb_false_iff in E. apply SFeqb_refl_of_eq in E.
  rewrite E. reflexivity.
Qed.

Lemma strict_neq_nan (x y : number) :
  JS.strict_neq x x = true -> JS.strict_neq y x = true.
Proof.
  unfold JS.strict_neq, JS.strict_eq. rewrite !FloatAxioms.eqb_spec.
  intros E. apply negb_true_iff in E. apply (SFeqb_nan _ (Prim2SF y)) in E.
  rewrite E. reflexivity.
Qed.

Lemma strict_neq_opt_nan (a b : option number) :
  JS.strict_neq_opt a a = true -> JS.strict_neq_opt b a = true.
Proof.
  destruct a as [x|], b as [y|]; simpl; try discriminate; try reflexivity.
  apply strict_neq_nan.
Qed.

(** ** Reading *)

Section Reading.
Context `{Host}.
Import Camera Coherence CoherenceFacts CameraFacts ConversionFacts.

(** Two states of a camera with the same transform, parent and
    parameters. *)
Definition same_parameters (c c' : Camera.t) : Prop :=
  transform c' = transform c /\ parent c' = parent c /\
  _fieldOfView c' = _fieldOfView c /\ _near c' = _near c /\
  _far c' = _far c /\ _aspect c' = _aspect c.

(** A change of the camera that touches nothing but cache slots. *)
Definition only_caches (c c' : Camera.t) : Prop :=
  same_parameters c c' /\ _id c' = _id c.

Lemma only_caches_refl c : only_caches c c.
Proof. repeat split. Qed.

Lemma worldToScreen_fields x y z point r c :
  exists u v w,
    snd (worldToScreen x y z point r c) =
    with__projection u (with__view v (with__target w c)).
Proof.
  rewrite worldToScreen_run, clipSpace_run.
  destruct (view_fields c) as (v & w & Ev).
  destruct (view c) as [vm c1]; simpl in Ev. subst c1.
  destruct (projection_fields r (with__view v (with__target w c))) as [u Eu].
  destruct (projection r _) as [pm c2]; simpl in *. subst c2. eauto.
Qed.

(** Reading never changes the transform, the parent, the four parameters or
    the dirty counter: [target], [projection], [view], [viewProjection] and
    [worldToScreen] touch cache slots only, and [worldToScreen] leaves the
    slot of the view-projection matrix alone as well. *)
Theorem reading_changes_only_caches (c : Camera.t) (r : Renderer)
    (x y z : number) (point : Point) :
  only_caches c (snd (target c)) /\
  only_caches c (snd (projection r c)) /\
  only_caches c (snd (view c)) /\
  only_caches c (snd (viewProjection r c)) /\
  only_caches c (snd (worldToScreen x y z point r c)) /\
  _viewProjection (snd (worldToScreen x y z point r c)) = _viewProjection c.
Proof.
  destruct (target_fields c) as (? & ->).
  destruct (projection_fields r c) as (? & ->).
  destruct (view_fields c) as (? & ? & ->).
  destruct (viewProjection_fields r c) as (? & ? & ? & ? & ->).
  destruct (worldToScreen_fields x y z point r c) as (? & ? & ? & ->).
  repeat split.
Qed.

(** A second read right after a read returns the same array and leaves the
    camera as the first read left it, whatever the camera held before. *)
Theorem second_read_is_free (c : Camera.t) (r : Renderer) :
  target (snd (target c)) = (fst (target c), snd (target c)) /\
  projection r (snd (projection r c)) =
    (fst (projection r c), snd (projection r c)) /\
  view (snd (view c)) = (fst (view c), snd (view c)) /\
  viewProjection r (snd (viewProjection r c)) =
    (fst (viewProjection r c), snd (viewProjection r c)).
Proof.
  repeat split.
  - rewrite (target_run c). split_decide; simpl.
    + rewrite target_run. split_decide; [reflexivity | contradiction].
    + rewrite target_run. simpl. split_decide; [reflexivity |].
      exfalso. auto.
  - rewrite (projection_run r c). split_decide; simpl.
    + rewrite projection_run. split_decide; [reflexivity | contradiction].
    + rewrite projection_run. simpl. split_decide; [reflexivity |].
      exfalso. auto.
  - rewrite (view_run c). split_decide; simpl.
    + rewrite view_run. split_decide; [reflexivity | contradiction].
    + destruct (target_fields c) as [w Ew].
      destruct (target c) as [tg c1]; simpl in *. subst c1.
      rewrite view_run. simpl. split_decide; [reflexivity |].
      exfalso. auto.
  - rewrite (viewProjection_run r c). split_decide; simpl.
    + rewrite viewProjection_run. split_decide; [reflexivity | contradiction].
    + destruct (projection_fields r c) as [u Eu].
      destruct (projection r c) as [pm c1]; simpl in *. subst c1.
      destruct (view_fields (with__projection u c)) as (v & w & Ev).
      destruct (view _) as [vm c2]; simpl in *. subst c2.
      rewrite viewProjection_run. simpl. split_decide; [reflexivity |].
      exfalso. auto.
Qed.

End Reading.

(** ** What [screenToWorld] leaves behind *)

Section ScreenToWorld.
Context `{Host}.
Import Camera Coherence CoherenceFacts CameraFacts ConversionFacts WorldFacts.

Lemma set_far_fields value c :
  exists n fa, set_far value c = with__id n (with__far fa c).
Proof.
  unfold set_far. destruct (JS.strict_neq _ _).
  - exists (_id c + 1)%Z, value. reflexivity.
  - exists (_id c), (_far c). destruct c; reflexivity.
Qed.

(** The state [screenToWorld] leaves, by the outcome of the inversion. *)
Lemma screenToWorld_state x y distance point r c :
  snd (screenToWorld x y distance point r c) =
    let c' := snd (viewProjection r (set_far distance c)) in
    match Mat4_invert (fst (viewProjection r (set_far distance c))) with
    | Some _ => set_far (far c) c'
    | None => c'
    end.
Proof.
  rewrite screenToWorld_run.
  destruct (viewProjection r (set_far distance c)) as [vp c']; simpl.
  destruct (Mat4_invert vp); reflexivity.
Qed.

(** When the matrix can be inverted, [screenToWorld] leaves the camera it
    was given, but for the dirty counter and the cache slots. *)
Lemma screenToWorld_success_fields x y distance point r c inverse :
  Mat4_invert (fst (viewProjection r (set_far distance c))) = Some inverse ->
  exists n a b d e,
    snd (screenToWorld x y distance point r c) =
    with__id n (with__viewProjection a (with__view b (with__target d
      (with__projection e c)))).
Proof.
  intros Hinv.
  pose proof (far_after_screenToWorld x y distance point r c) as Hfar.
  rewrite Hinv in Hfar. revert Hfar. rewrite screenToWorld_state, Hinv. simpl.
  destruct (viewProjection_fields r (set_far distance c)) as (a & b & d & e & ->).
  destruct (set_far_fields distance c) as (n & fa & ->).
  destruct (set_far_fields (far c)
              (with__viewProjection a (with__view b (with__target d
                 (with__projection e (with__id n (with__far fa c)))))))
    as (n' & fa' & ->).
  simpl. intros ->. exists n', a, b, d, e. destruct c; reflexivity.
Qed.

(** When the matrix can be inverted, [screenToWorld] returns with the
    transform, the parent and the four parameters, the far plane among them,
    as they were before the call. *)
Theorem screenToWorld_success_restores_parameters (c : Camera.t) (r : Renderer)
    (x y distance : number) (point : Point3D) (inverse : Mat4) :
  Mat4_invert (fst (viewProjection r (set_far distance c))) = Some inverse ->
  same_parameters c (snd (screenToWorld x y distance point r c)) /\
  far (snd (screenToWorld x y distance point r c)) = far c.
Proof.
  intros Hinv.
  destruct (screenToWorld_success_fields x y distance point r c inverse Hinv)
    as (n & a & b & d & e & ->).
  split; [repeat split | reflexivity].
Qed.

Lemma reading_fields_viewProjection r c :
  _id (snd (viewProjection r c)) = _id c /\
  _far (snd (viewProjection r c)) = _far c.
Proof.
  destruct (viewProjection_fields r c) as (a & b & d & e & ->). split; reflexivity.
Qed.

(** How far [screenToWorld] moves the dirty counter: not at all when the
    distance equals ([===]) the far plane; by two when it differs and the
    matrix can be inverted (the far plane is set and set back); by one when
    it differs and the matrix cannot be inverted. *)
Theorem screenToWorld_dirty_counter (c : Camera.t) (r : Renderer)
    (x y distance : number) (point : Point3D) :
  _id (snd (screenToWorld x y distance point r c)) =
    (_id c +
     if JS.strict_neq (far c) distance
     then match Mat4_invert (fst (viewProjection r (set_far distance c))) with
          | Some _ => 2
          | None => 1
          end
     else 0)%Z.
Proof.
  rewrite screenToWorld_state. simpl.
  destruct (reading_fields_viewProjection r (set_far distance c)) as [Eid Efar].
  destruct (Mat4_invert _) as [inverse|].
  - unfold set_far at 1. rewrite Efar.
    unfold far, set_far in *. destruct (JS.strict_neq (_far c) distance) eqn:E.
    + simpl in *. rewrite strict_neq_sym, E. simpl. rewrite Eid. simpl. lia.
    + rewrite (strict_neq_refl_of_eq _ _ E). rewrite Eid. lia.
  - rewrite Eid. unfold far, set_far.
    destruct (JS.strict_neq (_far c) distance); simpl; lia.
Qed.

End ScreenToWorld.

(** ** The caches cannot be seen *)

Section Transparency.
Context `{Host}.
Import Camera Coherence CoherenceFacts CameraFacts ConversionFacts WorldFacts.

(** The camera with its four cache slots emptied. *)
Definition without_caches (c : Camera.t) : Camera.t :=
  with__target None (with__viewProjection None (with__view None
    (with__projection None c))).

Lemma without_caches_coherent r c : coherent r (without_caches c).
Proof. split; intros mc k E; discriminate. Qed.

(** What the two conversions return on coherent caches, from the present
    values of the matrices. *)
Lemma worldToScreen_value x y z point r c :
  coherent r c ->
  fst (worldToScreen x y z point r c) =
    let clip := Vec4_transformMat4
                  (Vec4_transformMat4 (Vec4_set x y z 1) (view_now c))
                  (projection_now r c) in
    mkPoint ((divided (v0 clip) (v3 clip) + 1) / 2 * width r)
            (height r - (divided (v1 clip) (v3 clip) + 1) / 2 * height r).
Proof.
  intros Hc. rewrite worldToScreen_run, clipSpace_run.
  destruct (view_coherent r c Hc) as [Ev Hc1].
  destruct (view_fields c) as (a & b & Ef).
  destruct (view c) as [v c1]; simpl in *. subst v c1.
  destruct (projection_coherent r _ Hc1) as [Ep _].
  destruct (projection r _) as [p c2]; simpl in *. subst p. reflexivity.
Qed.

Lemma screenToWorld_value x y distance point r c :
  coherent r c ->
  fst (screenToWorld x y distance point r c) =
    match Mat4_invert (viewProjection_now r (set_far distance c)) with
    | Some inverse =>
        (Some (unprojected inverse x y r point), unprojected inverse x y r point)
    | None => (None, point)
    end.
Proof.
  intros Hc. rewrite screenToWorld_run.
  destruct (viewProjection_coherent r _ (set_far_coherent r distance c Hc)) as [E _].
  destruct (viewProjection r (set_far distance c)) as [vp c']; simpl in *. subst vp.
  destruct (Mat4_invert _); reflexivity.
Qed.

Lemma set_far_without_caches r distance c :
  viewProjection_now r (set_far distance (without_caches c)) =
  viewProjection_now r (set_far distance c).
Proof.
  unfold set_far. simpl. destruct (JS.strict_neq (_far c) distance); reflexivity.
Qed.

(** For every camera of a reachable program state, no cache slot holds a
    key that is ahead of the camera's [id]: a key other than [id] is an
    older one. *)
Theorem stored_keys_are_not_ahead (s : World.t) (i : nat) (c : Camera.t) (k : Z) :
  World.reachable s -> World.cameras s !! i = Some c ->
  (key_of (_target c) = Some k -> (k <= id c)%Z) /\
  (key_of (_projection c) = Some k -> (k <= id c)%Z) /\
  (key_of (_view c) = Some k -> (k <= id c)%Z) /\
  (key_of (_viewProjection c) = Some k -> (k <= id c)%Z).
Proof.
  intros Hs Hi. destruct (reachable_coherent s i c Hs Hi) as [Ht Hv Hp Hvp].
  assert (Hk : forall A (slot : option (MatrixComponent A)) value,
            fresh slot (id c) value -> key_of slot = Some k -> (k <= id c)%Z).
  { intros A [mc|] value Hf E; [|discriminate]. apply (Hf mc k eq_refl E). }
  repeat split; eapply Hk; eassumption.
Qed.

(** In every reachable program state the listeners of the renderer's
    [prerender] event are the cameras constructed so far, each once, in the
    order of construction: no camera is ever taken off the event. *)
Theorem every_camera_listens_once (s : World.t) :
  World.reachable s ->
  prerender (World.renderer s) = seq 0 (length (World.cameras s)) /\
  NoDup (prerender (World.renderer s)) /\
  forall i, i ∈ prerender (World.renderer s) <-> is_Some (World.cameras s !! i).
Proof.
  intros Hs. destruct (reachable_invariant s Hs) as [E _].
  split; [exact E |]. rewrite E. split; [apply NoDup_seq |].
  intros i. rewrite elem_of_seq, lookup_lt_is_Some. lia.
Qed.

End Transparency.

(** ** Assigning a parameter twice *)

Section Setters.
Context `{Host}.
Import Camera.

Lemma setter_twice {V : Type} (differs : V -> V -> bool)
    (field : Camera.t -> V) (put setter : V -> Camera.t -> Camera.t) :
  (forall value c, setter value c =
     if differs (field c) value then incr_id (put value c) else c) ->
  (forall value c, field (incr_id (put value c)) = value /\
                   _id (incr_id (put value c)) = (_id c + 1)%Z) ->
  (forall x value, differs value value = true -> differs x value = true) ->
  forall value c,
    (differs value value = false ->
     setter value (setter value c) = setter value c) /\
    (differs value value = true ->
     _id (setter value (setter value c)) = (_id c + 2)%Z).
Proof.
  intros Hset Hput Hnan value c. split; intros E.
  - rewrite (Hset value c). destruct (differs (field c) value) eqn:E1.
    + rewrite Hset. destruct (Hput value c) as [-> _]. rewrite E. reflexivity.
    + rewrite Hset, E1. reflexivity.
  - rewrite (Hset value c), (Hnan (field c) value E).
    rewrite Hset. destruct (Hput value c) as [-> Ei]. rewrite E.
    destruct (Hput value (incr_id (put value c))) as [_ ->]. lia.
Qed.

(** Assigning to [fieldOfView], [near], [far] or [aspect] the value that
    was just assigned changes nothing, so the dirty counter moves once for
    two equal assignments; unless the value is [NaN], which differs ([!==])
    from itself: then each of the two assignments increments the counter. *)
Theorem assigning_twice (c : Camera.t) (value : number) :
  (JS.strict_neq value value = false ->
   set_fieldOfView value (set_fieldOfView value c) = set_fieldOfView value c /\
   set_near value (set_near value c) = set_near value c /\
   set_far value (set_far value c) = set_far value c /\
   set_aspect (Some value) (set_aspect (Some value) c) = set_aspect (Some value) c) /\
  (JS.strict_neq value value = true ->
   _id (set_fieldOfView value (set_fieldOfView value c)) = (_id c + 2)%Z /\
   _id (set_near value (set_near value c)) = (_id c + 2)%Z /\
   _id (set_far value (set_far value c)) = (_id c + 2)%Z /\
   _id (set_aspect (Some value) (set_aspect (Some value) c)) = (_id c + 2)%Z) /\
  set_aspect None (set_aspect None c) = set_aspect None c.
Proof.
  pose proof (setter_twice JS.strict_neq _fieldOfView with__fieldOfView
                set_fieldOfView) as Hfov.
  pose proof (setter_twice JS.strict_neq _near with__near set_near) as Hnear.
  pose proof (setter_twice JS.strict_neq _far with__far set_far) as Hfar.
  pose proof (setter_twice JS.strict_neq_opt _aspect with__aspect set_aspect) as Hasp.
  specialize (Hfov ltac:(reflexivity) ltac:(split; reflexivity) (fun x v => strict_neq_nan v x) value c).
  specialize (Hnear ltac:(reflexivity) ltac:(split; reflexivity) (fun x v => strict_neq_nan v x) value c).
  specialize (Hfar ltac:(reflexivity) ltac:(split; reflexivity) (fun x v => strict_neq_nan v x) value c).
  pose proof (Hasp ltac:(reflexivity) ltac:(split; reflexivity) (fun x v => strict_neq_opt_nan v x)
                None c) as Hnone.
  specialize (Hasp ltac:(reflexivity) ltac:(split; reflexivity) (fun x v => strict_neq_opt_nan v x)
                (Some value) c).
  simpl in Hasp.
  split; [|split].
  - intros E. repeat split; [apply Hfov | apply Hnear | apply Hfar | apply Hasp]; exact E.
  - intros E. repeat split; [apply Hfov | apply Hnear | apply Hfar | apply Hasp]; exact E.
  - apply Hnone. reflexivity.
Qed.

End Setters.

(** ** Adding the attributes of a shader *)

Section Attributes.
Import MeshShader.

(** The calls [addGeometryAttributes] makes on a geometry. *)
Definition attribute_calls (g : MeshGeometry3D) : list geometry_call :=
  match indices g with
  | Some a => [addIndex (new_Uint32Array (buffer a))]
  | None => []
  end
  ++ attribute_call "a_Position" 3 (positions g)
  ++ attribute_call "a_UV1" 2 (uvs g ≫= head)
  ++ attribute_call "a_Normal" 3 (normals g)
  ++ attribute_call "a_Tangent" 4 (tangents g).

(** [addGeometryAttributes] only appends calls, at most five, none exactly
    when the geometry has no index, positions, first set of texture
    coordinates, normals or tangents; and it is not idempotent: on a
    geometry that already has the attributes it makes the same calls
    again. *)
Theorem addGeometryAttributes_again_adds_again (g : MeshGeometry3D) :
  calls (addGeometryAttributes g) = calls g ++ attribute_calls g /\
  calls (addGeometryAttributes (addGeometryAttributes g)) =
    calls g ++ attribute_calls g ++ attribute_calls g /\
  length (attribute_calls g) <= 5 /\
  (attribute_calls g = [] <->
   indices g = None /\ positions g = None /\ uvs g ≫= head = None /\
   normals g = None /\ tangents g = None).
Proof.
  rewrite (addGeometryAttributes_calls (addGeometryAttributes g)).
  rewrite (addGeometryAttributes_calls g). cbn [calls indices positions uvs normals tangents].
  fold (attribute_calls g). rewrite <- app_assoc.
  split; [reflexivity |]. split; [reflexivity |]. unfold attribute_calls.
  destruct (indices g), (positions g), (uvs g ≫= head), (normals g), (tangents g);
    cbn [attribute_call app length]; (split; [lia |]);
    (split; [try discriminate | try (intros (? & ? & ? & ? & ?); discriminate)]);
    auto.
Qed.

End Attributes.

(** ** Frames and sizes *)

Section Frames.
Context `{Host}.
Import Camera Coherence CoherenceFacts CameraFacts WorldFacts.

Lemma on_prerender_fields c :
  exists n t', on_prerender c = with_transform t' (with__id n c) /\
    (JS.truthy_opt (_aspect c) = false -> n = (_id c + 1)%Z) /\
    advances (transform c) t'.
Proof.
  unfold on_prerender.
  assert (Hadv : advances (transform c) (transform c)) by (split; auto; lia).
  destruct (JS.truthy_opt (_aspect c)); simpl;
    destruct (negb (bool_decide (is_Some (parent c)))).
  - exists (_id c), (updateTransform (transform c)).
    split; [destruct c; reflexivity |]. split; [discriminate |].
    apply updateTransform_advances.
  - exists (_id c), (transform c).
    split; [destruct c; reflexivity |]. split; [discriminate | exact Hadv].
  - exists (_id c + 1)%Z, (updateTransform (transform c)).
    split; [reflexivity |]. split; [reflexivity |]. apply updateTransform_advances.
  - exists (_id c + 1)%Z, (transform c).
    split; [destruct c; reflexivity |]. split; [reflexivity | exact Hadv].
Qed.

(** For every camera of a reachable program state whose aspect ratio is
    falsy, the [prerender] callback makes all four cached arrays stale, not
    the projection matrix alone: the target, the view matrix and the
    view-projection matrix are recomputed at their next read as well. *)
Theorem prerender_invalidates_every_cache (s : World.t) (i : nat) (c : Camera.t) :
  World.reachable s -> World.cameras s !! i = Some c ->
  JS.truthy_opt (_aspect c) = false ->
  invalidated (on_prerender c).
Proof.
  intros Hs Hi Ea. destruct (reachable_coherent s i c Hs Hi) as [Ht Hv Hp Hvp].
  destruct (on_prerender_fields c) as (n & t' & -> & Hn & [Hle _]).
  rewrite (Hn Ea).
  assert (id c < id (with_transform t' (with__id (_id c + 1) c)))%Z
    by (unfold id; simpl; lia).
  repeat split; simpl; eapply fresh_stale; eauto.
Qed.

(** A camera whose own aspect ratio is a number other than [0] and [NaN]
    does not see the size of the renderer in its projection and
    view-projection matrices: on a renderer of any other size the getters
    return the same arrays. *)
Theorem own_aspect_ignores_renderer_size (c : Camera.t) (r r' : Renderer) :
  JS.truthy_opt (_aspect c) = true ->
  fst (projection r' c) = fst (projection r c) /\
  fst (viewProjection r' c) = fst (viewProjection r c).
Proof.
  intros Ea.
  assert (Ep : forall c0, _aspect c0 = _aspect c ->
            projection r' c0 = projection r c0).
  { intros c0 E0. rewrite !projection_run. unfold projection_now.
    rewrite E0, (or_else_truthy _ _ (width r / height r)%float Ea). reflexivity. }
  split; [rewrite Ep; reflexivity |].
  rewrite !viewProjection_run. split_decide; [reflexivity |].
  rewrite Ep by reflexivity. reflexivity.
Qed.

End Frames.

(** ** The further properties on the example program *)

Section FurtherExamples.
#[local] Existing Instance Reference.host.

(** The example program after its camera's view-projection matrix was
    read. *)
Definition read_world : World.t :=
  World.mk (World.renderer Example.world)
           (<[0 := World.run_call World.GetViewProjection
                     (World.renderer Example.world) Example.camera]>
              (World.cameras Example.world))
           (World.Camera_main Example.world).

Definition read_camera : Camera.t :=
  snd (Camera.viewProjection Example.renderer Example.camera).

Lemma read_world_reachable : World.reachable read_world.
Proof.
  apply (World.reachable_call Example.world 0 Example.camera);
    [apply example_world_reachable | reflexivity | exact I].
Qed.

Lemma read_world_camera : World.cameras read_world !! 0 = Some read_camera.
Proof. reflexivity. Qed.

Lemma screenToWorld_success_restores_parameters_witness :
  same_parameters Example.camera
    (snd (Camera.screenToWorld 400 300 10 (mkPoint3D 7 7 7)
            Example.renderer Example.camera)) /\
  Camera.far (snd (Camera.screenToWorld 400 300 10 (mkPoint3D 7 7 7)
                     Example.renderer Example.camera)) = Camera.far Example.camera.
Proof.
  eapply (screenToWorld_success_restores_parameters Example.camera Example.renderer).
  vm_compute. reflexivity.
Defined.

Lemma stored_keys_are_not_ahead_witness :
  (Coherence.key_of (Camera._target read_camera) = Some 2%Z ->
   (2 <= Camera.id read_camera)%Z) /\
  (Coherence.key_of (Camera._projection read_camera) = Some 2%Z ->
   (2 <= Camera.id read_camera)%Z) /\
  (Coherence.key_of (Camera._view read_camera) = Some 2%Z ->
   (2 <= Camera.id read_camera)%Z) /\
  (Coherence.key_of (Camera._viewProjection read_camera) = Some 2%Z ->
   (2 <= Camera.id read_camera)%Z).
Proof.
  exact (stored_keys_are_not_ahead read_world 0 read_camera 2
           read_world_reachable read_world_camera).
Defined.

Lemma every_camera_listens_once_witness :
  prerender (World.renderer Example.world) =
    seq 0 (length (World.cameras Example.world)) /\
  NoDup (prerender (World.renderer Example.world)) /\
  forall i, i ∈ prerender (World.renderer Example.world) <->
            is_Some (World.cameras Example.world !! i).
Proof.
  exact (every_camera_listens_once Example.world example_world_reachable).
Defined.

Lemma assigning_twice_witness :
  Camera.set_far 5 (Camera.set_far 5 Example.camera) = Camera.set_far 5 Example.camera /\
  Camera._id (Camera.set_far nan (Camera.set_far nan Example.camera)) =
    (Camera._id Example.camera + 2)%Z.
Proof.
  split.
  - apply (proj1 (assigning_twice Example.camera 5)). reflexivity.
  - apply (proj1 (proj2 (assigning_twice Example.camera nan))). reflexivity.
Defined.

Lemma prerender_invalidates_every_cache_witness :
  invalidated (Camera.on_prerender read_camera).
Proof.
  apply (prerender_invalidates_every_cache read_world 0 read_camera
           read_world_reachable read_world_camera).
  reflexivity.
Defined.

Lemma own_aspect_ignores_renderer_size_witness :
  fst (Camera.projection (mkRenderer 400 400 [])
         (Camera.set_aspect (Some 2%float) Example.camera)) =
    fst (Camera.projection Example.renderer
           (Camera.set_aspect (Some 2%float) Example.camera)) /\
  fst (Camera.viewProjection (mkRenderer 400 400 [])
         (Camera.set_aspect (Some 2%float) Example.camera)) =
    fst (Camera.viewProjection Example.renderer
           (Camera.set_aspect (Some 2%float) Example.camera)).
Proof.
  apply (own_aspect_ignores_renderer_size
           (Camera.set_aspect (Some 2%float) Example.camera)).
  reflexivity.
Defined.

End FurtherExamples.

(** * Program states with a resize at any time *)

(** [World.reachable] lets the host resize the renderer only together with
    the [prerender] event that follows.  A program can also use a camera
    between the two; [possible] has the resize as an event of its own. *)
Module Anytime.
Section WithHost.
Context `{Host}.
Import Camera Coherence CoherenceFacts CameraFacts ConversionFacts WorldFacts.

Inductive possible : World.t -> Prop :=
| possible_start w h :
    possible (World.start w h)
| possible_new s :
    possible s -> possible (World.new_Camera s)
| possible_prerender s :
    possible s -> possible (World.emit_prerender s)
| possible_resize s w h :
    possible s -> possible (World.resize w h s)
| possible_call s i c k :
    possible s ->
    World.cameras s !! i = Some c ->
    World.permitted k c ->
    possible (World.mk (World.renderer s)
                (<[i := World.run_call k (World.renderer s) c]> (World.cameras s))
                (World.Camera_main s)).

(** A slot whose key is not ahead of [key], whatever array it holds. *)
Definition bounded {A : Type} (slot : option (MatrixComponent A)) (key : Z) : Prop :=
  forall mc k, slot = Some mc -> mc_id mc = Some k -> (k <= key)%Z.

(** What holds of the caches whatever the renderer's size has been: the
    target and the view matrix are fresh, and the keys of the two arrays
    that depend on the size are not ahead. *)
Record loose (c : Camera.t) : Prop := {
  loose_target : fresh (_target c) (id c) (target_now c);
  loose_view : fresh (_view c) (id c) (view_now c);
  loose_projection : bounded (_projection c) (id c);
  loose_viewProjection : bounded (_viewProjection c) (id c) }.

(** The invariant of [possible]: the caches are loose, and coherent with
    the renderer when the camera's own aspect ratio is in use. *)
Definition settled (r : Renderer) (c : Camera.t) : Prop :=
  loose c /\ (JS.truthy_opt (_aspect c) = true -> coherent r c).

Lemma bounded_store {A} key (a : A) : bounded (store key a) key.
Proof. intros mc k [= <-] [= <-]. lia. Qed.

Lemma fresh_bounded {A} slot key (value : A) : fresh slot key value -> bounded slot key.
Proof. intros Hf mc k Hs Hk. apply (Hf mc k Hs Hk). Qed.

Lemma bounded_advance {A} (slot : option (MatrixComponent A)) key key' :
  (key <= key')%Z -> bounded slot key -> bounded slot key'.
Proof. intros Hle Hb mc k Hs Hk. specialize (Hb mc k Hs Hk). lia. Qed.

Lemma bounded_fresh {A} (slot : option (MatrixComponent A)) key key' (value : A) :
  (key < key')%Z -> bounded slot key -> fresh slot key' value.
Proof. intros Hlt Hb mc k Hs Hk. specialize (Hb mc k Hs Hk). split; lia. Qed.

Lemma coherent_loose r c : coherent r c -> loose c.
Proof. intros [Ht Hv Hp Hvp]. split; eauto using fresh_bounded. Qed.

(** *** Reading *)

Lemma target_loose c :
  loose c -> fst (target c) = target_now c /\ loose (snd (target c)).
Proof.
  intros [Ht Hv Hp Hvp]. rewrite target_run. split_decide; simpl.
  - split; [eauto using fresh_hit | split; assumption].
  - split; [reflexivity | split; simpl; auto using fresh_store].
Qed.

Lemma projection_loose r c : loose c -> loose (snd (projection r c)).
Proof.
  intros [Ht Hv Hp Hvp]. rewrite projection_run. split_decide; simpl.
  - split; assumption.
  - split; simpl; auto using bounded_store.
Qed.

Lemma view_loose c :
  loose c -> fst (view c) = view_now c /\ loose (snd (view c)).
Proof.
  intros Hc. rewrite view_run. split_decide; simpl.
  - destruct Hc as [Ht Hv Hp Hvp].
    split; [eauto using fresh_hit | split; assumption].
  - destruct (target_loose c Hc) as [E [Ht Hv Hp Hvp]].
    destruct (target_fields c) as [x Ex].
    destruct (target c) as [tg c']; simpl in *. subst c' tg.
    split; [reflexivity | split; simpl; auto using fresh_store].
Qed.

Lemma viewProjection_loose r c : loose c -> loose (snd (viewProjection r c)).
Proof.
  intros Hc. rewrite viewProjection_run. split_decide; simpl; [assumption |].
  pose proof (projection_loose r c Hc) as Hc1.
  destruct (projection_fields r c) as [u Eu].
  destruct (projection r c) as [p c1]; simpl in *. subst c1.
  destruct (view_loose _ Hc1) as [_ [Ht Hv Hp Hvp]].
  destruct (view_fields (with__projection u c)) as (y & z & Ey).
  destruct (view _) as [v c2]; simpl in *. subst c2.
  split; simpl; auto using bounded_store.
Qed.

(** *** Changing *)

Lemma loose_move c c' :
  _target c' = _target c -> _view c' = _view c ->
  _projection c' = _projection c -> _viewProjection c' = _viewProjection c ->
  (id c <= id c')%Z ->
  (id c = id c' -> target_now c = target_now c' /\ view_now c = view_now c') ->
  loose c -> loose c'.
Proof.
  intros Et Ev Ep Evp Hle Hsame [Ht Hv Hp Hvp].
  split; [rewrite Et | rewrite Ev | rewrite Ep | rewrite Evp].
  - eapply fresh_advance; [exact Hle | | eassumption]. intros E. apply (Hsame E).
  - eapply fresh_advance; [exact Hle | | eassumption]. intros E. apply (Hsame E).
  - eapply bounded_advance; eassumption.
  - eapply bounded_advance; eassumption.
Qed.

(** After a change that raises [id] and leaves the slots alone, the caches
    are coherent with any renderer: every slot is stale. *)
Lemma loose_raised r c c' :
  _target c' = _target c -> _view c' = _view c ->
  _projection c' = _projection c -> _viewProjection c' = _viewProjection c ->
  (id c < id c')%Z -> loose c -> coherent r c'.
Proof.
  intros Et Ev Ep Evp Hlt [Ht Hv Hp Hvp].
  split; [rewrite Et | rewrite Ev | rewrite Ep | rewrite Evp];
    eapply bounded_fresh; eauto using fresh_bounded.
Qed.

Lemma settled_step r c c' :
  (loose c -> loose c') -> (coherent r c -> coherent r c') ->
  _aspect c' = _aspect c ->
  settled r c -> settled r c'.
Proof.
  intros Hl Hc Ea [Hloose Hcoh]. split; [auto |]. rewrite Ea. auto.
Qed.

Lemma set_number_loose (field : Camera.t -> number)
    (put setter : number -> Camera.t -> Camera.t) value c :
  setter value c =
    (if JS.strict_neq (field c) value then incr_id (put value c) else c) ->
  _id (put value c) = _id c /\ transform (put value c) = transform c /\
  _projection (put value c) = _projection c /\ _target (put value c) = _target c /\
  _view (put value c) = _view c /\ _viewProjection (put value c) = _viewProjection c ->
  loose c -> loose (setter value c).
Proof.
  intros -> (Ei & Etr & Ep & Etg & Ev & Evp) Hc.
  destruct (JS.strict_neq (field c) value); [|assumption].
  revert Hc. apply loose_move; simpl; try assumption;
    unfold id; simpl; rewrite ?Ei, ?Etr; lia.
Qed.

Lemma set_far_loose value c : loose c -> loose (set_far value c).
Proof.
  apply (set_number_loose _far with__far set_far); [reflexivity |].
  simpl. auto 10.
Qed.

Lemma set_aspect_settled r value c : settled r c -> settled r (set_aspect value c).
Proof.
  intros [Hl Hc]. unfold set_aspect.
  destruct (JS.strict_neq_opt (_aspect c) value); [|split; assumption].
  split.
  - revert Hl. apply loose_move; try reflexivity; unfold id; simpl; lia.
  - intros _. revert Hl. apply loose_raised; try reflexivity.
    unfold id; simpl; lia.
Qed.

Lemma on_prerender_loose c : loose c -> loose (on_prerender c).
Proof.
  intros Hc. unfold on_prerender.
  assert (Hc1 : loose (if negb (JS.truthy_opt (_aspect c)) then incr_id c else c)).
  { destruct (negb _); [|assumption].
    revert Hc. apply loose_move; try reflexivity; unfold id; simpl; lia. }
  destruct (negb (bool_decide _)); [|assumption].
  destruct (updateTransform_advances
              (transform (if negb (JS.truthy_opt (_aspect c)) then incr_id c else c)))
    as [Hle Hsame].
  revert Hc1. apply loose_move; try reflexivity.
  - unfold id; simpl. lia.
  - unfold id; simpl. intros E. destruct (Hsame ltac:(lia)) as (Epos & Efwd & Eup).
    unfold view_now, target_now; simpl. rewrite Epos, Efwd, Eup. auto.
Qed.

Lemma on_prerender_aspect c : _aspect (on_prerender c) = _aspect c.
Proof.
  unfold on_prerender.
  destruct (negb (JS.truthy_opt (_aspect c))), (negb (bool_decide _)); reflexivity.
Qed.

Lemma transform_loose c t' :
  advances (transform c) t' -> loose c -> loose (with_transform t' c).
Proof.
  intros [Hle Hsame]. apply loose_move; try reflexivity.
  - unfold id; simpl. lia.
  - unfold id; simpl. intros E. destruct (Hsame ltac:(lia)) as (Epos & Efwd & Eup).
    unfold view_now, target_now; simpl. rewrite Epos, Efwd, Eup. auto.
Qed.

Lemma screenToWorld_loose x y distance point r c :
  loose c -> loose (snd (screenToWorld x y distance point r c)).
Proof.
  intros Hc. rewrite screenToWorld_run.
  pose proof (viewProjection_loose r _ (set_far_loose distance c Hc)) as Hc'.
  destruct (viewProjection r (set_far distance c)) as [vp c']. simpl in Hc'.
  destruct (Mat4_invert vp); simpl; auto using set_far_loose.
Qed.

Lemma worldToScreen_loose x y z point r c :
  loose c -> loose (snd (worldToScreen x y z point r c)).
Proof.
  intros Hc. rewrite worldToScreen_run, clipSpace_run.
  pose proof (view_loose c Hc) as [_ Hc1].
  destruct (view c) as [v c1]. simpl in Hc1.
  pose proof (projection_loose r c1 Hc1) as Hc2.
  destruct (projection r c1) as [p c2]. exact Hc2.
Qed.

Lemma screenToWorld_aspect x y distance point r c :
  _aspect (snd (screenToWorld x y distance point r c)) = _aspect c.
Proof.
  rewrite screenToWorld_run.
  destruct (viewProjection_fields r (set_far distance c)) as (a & b & d & e & E).
  destruct (viewProjection r (set_far distance c)) as [vp c']. simpl in E. subst c'.
  assert (Ea : forall v c0, _aspect (set_far v c0) = _aspect c0)
    by (intros v c0; unfold set_far; destruct (JS.strict_neq _ _); reflexivity).
  destruct (Mat4_invert vp); simpl; rewrite ?Ea; simpl; rewrite ?Ea; reflexivity.
Qed.

Lemma run_call_settled k r c :
  World.permitted k c -> settled r c -> settled r (World.run_call k r c).
Proof.
  intros Hk Hs. destruct k; simpl in *.
  - apply set_aspect_settled; assumption.
  - revert Hs. apply settled_step;
      [| apply set_fieldOfView_coherent
       | unfold set_fieldOfView; destruct (JS.strict_neq _ _); reflexivity].
    apply (set_number_loose _fieldOfView with__fieldOfView set_fieldOfView);
      [reflexivity | simpl; auto 10].
  - revert Hs. apply settled_step;
      [| apply set_near_coherent
       | unfold set_near; destruct (JS.strict_neq _ _); reflexivity].
    apply (set_number_loose _near with__near set_near);
      [reflexivity | simpl; auto 10].
  - revert Hs. apply settled_step;
      [apply set_far_loose | apply set_far_coherent
       | unfold set_far; destruct (JS.strict_neq _ _); reflexivity].
  - revert Hs. apply settled_step;
      [apply projection_loose | apply projection_coherent |].
    destruct (projection_fields r c) as (u & ->). reflexivity.
  - revert Hs. apply settled_step;
      [apply target_loose | apply target_coherent |].
    destruct (target_fields c) as (u & ->). reflexivity.
  - revert Hs. apply settled_step;
      [apply view_loose | apply view_coherent |].
    destruct (view_fields c) as (u & v & ->). reflexivity.
  - revert Hs. apply settled_step;
      [apply viewProjection_loose | apply viewProjection_coherent |].
    destruct (viewProjection_fields r c) as (a & b & d & e & ->). reflexivity.
  - revert Hs. apply settled_step;
      [apply screenToWorld_loose | apply screenToWorld_coherent
       | apply screenToWorld_aspect].
  - revert Hs. apply settled_step;
      [apply worldToScreen_loose | apply worldToScreen_coherent |].
    destruct (worldToScreen_fields x y z point r c) as (a & b & d & ->). reflexivity.
  - revert Hs. apply settled_step; [| | reflexivity].
    + apply loose_move; try reflexivity. auto.
    + apply coherent_move; try reflexivity. auto.
  - revert Hs. apply settled_step;
      [apply transform_loose | apply transform_coherent | reflexivity]; assumption.
Qed.

(** A resize leaves the camera settled: its size-dependent caches count
    only while the camera's own aspect ratio is in use, and then they do
    not depend on the size. *)
Lemma resize_settled r r' c : settled r c -> settled r' c.
Proof.
  intros [Hl Hc]. split; [assumption |]. intros Ea. specialize (Hc Ea).
  revert Hc. apply coherent_move; try reflexivity. intros _.
  unfold viewProjection_now, projection_now.
  rewrite (or_else_truthy _ _ (width r' / height r')%float Ea). auto.
Qed.

Lemma on_prerender_settled r c : settled r c -> settled r (on_prerender c).
Proof.
  apply settled_step;
    [apply on_prerender_loose | apply on_prerender_coherent
     | apply on_prerender_aspect].
Qed.

Definition invariant (s : World.t) : Prop :=
  prerender (World.renderer s) = seq 0 (length (World.cameras s)) /\
  forall i c, World.cameras s !! i = Some c -> settled (World.renderer s) c.

Lemma possible_invariant s : possible s -> invariant s.
Proof.
  induction 1 as [w h | s Hs IH | s Hs IH | s w h Hs IH | s i c k Hs IH Hi Hk].
  - split; [reflexivity |]. intros i c E. simpl in E.
    rewrite lookup_nil in E. discriminate.
  - destruct IH as [IHl IHc]. split.
    + cbn [World.new_Camera World.renderer World.cameras prerender].
      rewrite IHl, length_app. cbn [length]. rewrite Nat.add_1_r, seq_S. reflexivity.
    + simpl. intros i c E. apply lookup_app_Some in E as [E | [_ E]].
      * apply IHc in E. destruct E as [Hl Hc]. split; [assumption |].
        intros Ea. destruct (Hc Ea). split; assumption.
      * apply list_lookup_singleton_Some in E as [_ <-].
        split; [|intros _; apply init_coherent].
        apply (coherent_loose (World.renderer s)), init_coherent.
  - destruct IH as [IHl IHc]. split.
    + simpl. rewrite alter_each_length. exact IHl.
    + intros i c E. rewrite emit_prerender_lookup in E by exact IHl.
      destruct (World.cameras s !! i) as [c0|] eqn:E0; [|discriminate].
      injection E as <-. apply on_prerender_settled. eauto.
  - destruct IH as [IHl IHc]. split; [exact IHl |].
    simpl. intros i c E. eapply resize_settled. eauto.
  - destruct IH as [IHl IHc]. split.
    + simpl. rewrite length_insert. exact IHl.
    + simpl. intros j c' E. destruct (decide (i = j)) as [<-|Hne].
      * rewrite list_lookup_insert_eq in E by (eapply lookup_lt_Some; eauto).
        injection E as <-. apply run_call_settled; eauto.
      * rewrite list_lookup_insert_ne in E by assumption. eauto.
Qed.

Lemma possible_settled s i c :
  possible s -> World.cameras s !! i = Some c -> settled (World.renderer s) c.
Proof. intros Hs. apply (possible_invariant s Hs). Qed.

(** Every state of [World.reachable] is one of [possible]. *)
Lemma reachable_possible s : World.reachable s -> possible s.
Proof.
  induction 1; eauto using possible.
Qed.

End WithHost.
End Anytime.

(** ** What the caches do not show *)

Section AnytimeTransparency.
Context `{Host}.
Import Camera Coherence CoherenceFacts CameraFacts ConversionFacts Anytime.

Lemma without_caches_loose c : loose (without_caches c).
Proof. apply (coherent_loose (mkRenderer 0 0 [])), without_caches_coherent. Qed.

(** For every camera of a possible program state, resizes at any time
    included: the target and view getters return what they return on the
    same camera with empty caches; and when the camera's own aspect ratio is
    a number other than [0] and [NaN], so do the projection and
    view-projection getters and the two conversions.  (Without an aspect
    ratio of its own, a camera read between a resize and the next
    [prerender] event shows the old size, which the empty caches would
    not.) *)
Theorem caches_are_transparent (s : World.t) (i : nat) (c : Camera.t)
    (x y z : number) (point : Point) (point3 : Point3D) :
  possible s -> World.cameras s !! i = Some c ->
  let r := World.renderer s in
  fst (target c) = fst (target (without_caches c)) /\
  fst (view c) = fst (view (without_caches c)) /\
  (JS.truthy_opt (_aspect c) = true ->
   fst (projection r c) = fst (projection r (without_caches c)) /\
   fst (viewProjection r c) = fst (viewProjection r (without_caches c)) /\
   fst (worldToScreen x y z point r c) =
     fst (worldToScreen x y z point r (without_caches c)) /\
   fst (screenToWorld x y z point3 r c) =
     fst (screenToWorld x y z point3 r (without_caches c))).
Proof.
  intros Hs Hi r. destruct (possible_settled s i c Hs Hi) as [Hl Hc]. fold r in Hc.
  pose proof (without_caches_loose c) as Hl0.
  destruct (target_loose c Hl) as [-> _].
  destruct (target_loose _ Hl0) as [-> _].
  destruct (view_loose c Hl) as [-> _].
  destruct (view_loose _ Hl0) as [-> _].
  split; [reflexivity |]. split; [reflexivity |].
  intros Ea. specialize (Hc Ea). pose proof (without_caches_coherent r c) as Hc0.
  destruct (projection_coherent r c Hc) as [-> _].
  destruct (projection_coherent r _ Hc0) as [-> _].
  destruct (viewProjection_coherent r c Hc) as [-> _].
  destruct (viewProjection_coherent r _ Hc0) as [-> _].
  rewrite !worldToScreen_value, !screenToWorld_value by assumption.
  rewrite set_far_without_caches. repeat split.
Qed.

(** For every camera of a possible program state, resizes at any time
    included, after a call of [screenToWorld] in which the matrix could be
    inverted: the target and view getters return what they returned before
    the call; and when the camera's own aspect ratio is a number other than
    [0] and [NaN], so do the projection and view-projection getters. *)
Theorem screenToWorld_success_keeps_matrices (s : World.t) (i : nat)
    (c : Camera.t) (x y distance : number) (point : Point3D) (inverse : Mat4) :
  possible s -> World.cameras s !! i = Some c ->
  let r := World.renderer s in
  Mat4_invert (fst (viewProjection r (set_far distance c))) = Some inverse ->
  let c' := snd (screenToWorld x y distance point r c) in
  fst (target c') = fst (target c) /\
  fst (view c') = fst (view c) /\
  (JS.truthy_opt (_aspect c) = true ->
   fst (projection r c') = fst (projection r c) /\
   fst (viewProjection r c') = fst (viewProjection r c)).
Proof.
  intros Hs Hi r Hinv c'. destruct (possible_settled s i c Hs Hi) as [Hl Hc].
  fold r in Hc.
  pose proof (screenToWorld_loose x y distance point r c Hl) as Hl'. fold c' in Hl'.
  destruct (screenToWorld_success_fields x y distance point r c inverse Hinv)
    as (n & a & b & d & e & Ef). fold c' in Ef.
  destruct (target_loose c Hl) as [-> _].
  destruct (target_loose _ Hl') as [-> _].
  destruct (view_loose c Hl) as [-> _].
  destruct (view_loose _ Hl') as [-> _].
  split; [rewrite Ef; reflexivity |]. split; [rewrite Ef; reflexivity |].
  intros Ea. specialize (Hc Ea).
  pose proof (screenToWorld_coherent x y distance point r c Hc) as Hc'.
  fold c' in Hc'.
  destruct (projection_coherent r c Hc) as [-> _].
  destruct (projection_coherent r _ Hc') as [-> _].
  destruct (viewProjection_coherent r c Hc) as [-> _].
  destruct (viewProjection_coherent r _ Hc') as [-> _].
  rewrite Ef. split; reflexivity.
Qed.

End AnytimeTransparency.

Section AnytimeExamples.
#[local] Existing Instance Reference.host.

(** The example program after its camera was given the aspect ratio 2 and
    its view-projection matrix was read, and the renderer was then resized
    to 400 by 400, with no [prerender] event since. *)
Definition wide_world : World.t :=
  World.mk (World.renderer Example.world)
           (<[0 := World.run_call (World.SetAspect (Some 2%float))
                     (World.renderer Example.world) Example.camera]>
              (World.cameras Example.world))
           (World.Camera_main Example.world).

Definition wide_camera : Camera.t :=
  World.run_call World.GetViewProjection (World.renderer wide_world)
    (Camera.set_aspect (Some 2%float) Example.camera).

Definition read_wide_world : World.t :=
  World.mk (World.renderer wide_world)
           (<[0 := wide_camera]> (World.cameras wide_world))
           (World.Camera_main wide_world).

Definition resized_world : World.t := World.resize 400 400 read_wide_world.

Lemma resized_world_possible : Anytime.possible resized_world.
Proof.
  apply Anytime.possible_resize.
  apply (Anytime.possible_call wide_world 0
           (Camera.set_aspect (Some 2%float) Example.camera));
    [| reflexivity | exact I].
  apply (Anytime.possible_call Example.world 0 Example.camera);
    [| reflexivity | exact I].
  apply Anytime.reachable_possible, example_world_reachable.
Qed.

Lemma resized_world_camera : World.cameras resized_world !! 0 = Some wide_camera.
Proof. reflexivity. Qed.

Lemma caches_are_transparent_witness :
  let r := World.renderer resized_world in
  fst (Camera.target wide_camera) = fst (Camera.target (without_caches wide_camera)) /\
  fst (Camera.view wide_camera) = fst (Camera.view (without_caches wide_camera)) /\
  fst (Camera.projection r wide_camera) =
    fst (Camera.projection r (without_caches wide_camera)) /\
  fst (Camera.viewProjection r wide_camera) =
    fst (Camera.viewProjection r (without_caches wide_camera)) /\
  fst (Camera.worldToScreen 1 1 0 (mkPoint 0 0) r wide_camera) =
    fst (Camera.worldToScreen 1 1 0 (mkPoint 0 0) r (without_caches wide_camera)) /\
  fst (Camera.screenToWorld 1 1 0 (mkPoint3D 7 7 7) r wide_camera) =
    fst (Camera.screenToWorld 1 1 0 (mkPoint3D 7 7 7) r (without_caches wide_camera)).
Proof.
  destruct (caches_are_transparent resized_world 0 wide_camera 1 1 0 (mkPoint 0 0)
              (mkPoint3D 7 7 7) resized_world_possible resized_world_camera)
    as (Ht & Hv & Hrest).
  split; [exact Ht |]. split; [exact Hv |]. apply Hrest. reflexivity.
Defined.

Lemma screenToWorld_success_keeps_matrices_witness :
  let r := World.renderer resized_world in
  let c' := snd (Camera.screenToWorld 200 200 10 (mkPoint3D 7 7 7) r wide_camera) in
  fst (Camera.target c') = fst (Camera.target wide_camera) /\
  fst (Camera.view c') = fst (Camera.view wide_camera) /\
  fst (Camera.projection r c') = fst (Camera.projection r wide_camera) /\
  fst (Camera.viewProjection r c') = fst (Camera.viewProjection r wide_camera).
Proof.
  destruct (Mat4_invert (fst (Camera.viewProjection (World.renderer resized_world)
                                (Camera.set_far 10 wide_camera))))
    as [inverse|] eqn:E; [|vm_compute in E; discriminate].
  destruct (screenToWorld_success_keeps_matrices resized_world 0 wide_camera
              200 200 10 (mkPoint3D 7 7 7) inverse
              resized_world_possible resized_world_camera E)
    as (Ht & Hv & Hrest).
  split; [exact Ht |]. split; [exact Hv |]. apply Hrest. reflexivity.
Defined.

End AnytimeExamples.
